(** * Verification of src/src/05-objects-tasks.js

    The module exports [Rectangle], [getJSON], [fromJSON] and the object
    [cssSelectorBuilder].  The selector builder is modelled twice:

    - [Heap]: the JavaScript objects themselves.  Every builder object is
      created by [Object.create(cssSelectorBuilder)], so its prototype is
      the base object [cssSelectorBuilder]; a property read walks the
      prototype chain.  Methods run in a state-and-exception monad over a
      heap of such objects.
    - [Pure]: the observable fields of one builder object (as read through
      the prototype chain) and the methods as functions on them.

    [Sim] proves that each method of [Heap] acts on the fields read through
    the chain exactly as the function of [Pure] does. *)

From Stdlib Require Import ZArith Lia.
From stdpp Require Import base list strings option pretty.

Open Scope Z_scope.

(** The two messages thrown by the builder (lines 126/140/180 and 197). *)
Definition msg_dup : string :=
  "Element, id and pseudo-element should not occur more then one time inside the selector".
Definition msg_order : string :=
  "Selector parts should be arranged in the following order: element, id, class, attribute, pseudo-class, pseudo-element".

(** JavaScript numbers as the builder uses them: integers, and the [NaN]
    that [undefined + 1] produces. *)
Inductive num := Num (z : Z) | NaN.

(** A numeric property read is [None] when the property is absent
    ([undefined]).  [x + 1] on such a read (lines 122, 135, 175), and
    [x > n] (lines 125, 139, 179, 196): [undefined > n] and [NaN > n] are
    [false]. *)
Definition js_plus1 (o : option num) : num :=
  match o with Some (Num z) => Num (z + 1) | _ => NaN end.
Definition js_gt (o : option num) (n : Z) : bool :=
  match o with Some (Num z) => Z.gtb z n | _ => false end.
(** Template literal [`${x}`] of a string property: [undefined] prints as
    ["undefined"]. *)
Definition js_str (o : option string) : string :=
  match o with Some s => s | None => "undefined" end.

(** The double quote character, for selector values that contain one. *)
Definition dq : string := String (Ascii.ascii_of_nat 34) EmptyString.

(** The six part kinds of the builder, with the rank each method passes
    to [checkOrder]. *)
Inductive part := Element | Id | Class | Attr | PseudoClass | PseudoElement.

#[global] Instance part_eq_dec : EqDecision part.
Proof. solve_decision. Defined.

Definition rank (k : part) : Z :=
  match k with
  | Element => 1 | Id => 2 | Class => 3
  | Attr => 4 | PseudoClass => 5 | PseudoElement => 6
  end.

(** Kinds that carry a singleton counter. *)
Definition singleton (k : part) : bool :=
  match k with Element | Id | PseudoElement => true | _ => false end.

(** The text each method appends after [this.string]. *)
Definition render (k : part) (value : string) : string :=
  match k with
  | Element => value
  | Id => "#" +:+ value
  | Class => "." +:+ value
  | Attr => "[" +:+ value +:+ "]"
  | PseudoClass => ":" +:+ value
  | PseudoElement => "::" +:+ value
  end.

Module Heap.

(** A builder object: its prototype and its own properties (absent
    own properties are [None]). *)
Record bobj := mk_bobj {
  b_proto : option nat;
  b_string : option string;
  b_order : option num;
  b_elementNum : option num;
  b_idNum : option num;
  b_pseodoEl : option num
}.

Abbreviation heap := (list bobj) (only parsing).

(** [cssSelectorBuilder] itself (lines 114-118): no [order] property. *)
Definition cssSelectorBuilder : bobj :=
  mk_bobj None (Some "") None (Some (Num 0)) (Some (Num 0)) (Some (Num 0)).

(** The base object lives at location 0 of the initial heap. *)
Definition base_loc : nat := 0%nat.
Definition init_heap : heap := [cssSelectorBuilder].

(** [Object.create(cssSelectorBuilder)]: no own properties. *)
Definition new_obj : bobj :=
  mk_bobj (Some base_loc) None None None None None.

Definition set_string (s : string) (o : bobj) : bobj :=
  mk_bobj (b_proto o) (Some s) (b_order o) (b_elementNum o) (b_idNum o) (b_pseodoEl o).
Definition set_order (n : num) (o : bobj) : bobj :=
  mk_bobj (b_proto o) (b_string o) (Some n) (b_elementNum o) (b_idNum o) (b_pseodoEl o).
Definition set_elementNum (n : num) (o : bobj) : bobj :=
  mk_bobj (b_proto o) (b_string o) (b_order o) (Some n) (b_idNum o) (b_pseodoEl o).
Definition set_idNum (n : num) (o : bobj) : bobj :=
  mk_bobj (b_proto o) (b_string o) (b_order o) (b_elementNum o) (Some n) (b_pseodoEl o).
Definition set_pseodoEl (n : num) (o : bobj) : bobj :=
  mk_bobj (b_proto o) (b_string o) (b_order o) (b_elementNum o) (b_idNum o) (Some n).

(** Property read through the prototype chain.  The fuel bounds the
    length of the chain; [get] gives location [l] fuel [S l], enough
    when prototypes sit at smaller locations than the objects using
    them (objects are allocated after their prototype). *)
Fixpoint lookup {A} (f : bobj -> option A) (fuel : nat) (h : heap) (l : nat)
    : option A :=
  match fuel with
  | O => None
  | S fuel' =>
      match h !! l with
      | None => None
      | Some o =>
          match f o with
          | Some v => Some v
          | None =>
              match b_proto o with
              | Some p => lookup f fuel' h p
              | None => None
              end
          end
      end
  end.

Definition get {A} (f : bobj -> option A) (h : heap) (l : nat) : option A :=
  lookup f (S l) h l.

(** State and exception monad: [inl msg] is a thrown [Error(msg)];
    the heap is kept as it is at the throw. *)
Definition M (A : Type) : Type := heap -> (string + A) * heap.

Definition ret {A} (a : A) : M A := fun h => (inr a, h).
Definition bind {A B} (m : M A) (k : A -> M B) : M B :=
  fun h => match m h with
           | (inl e, h') => (inl e, h')
           | (inr a, h') => k a h'
           end.
Definition throw {A} (msg : string) : M A := fun h => (inl msg, h).
Definition alloc (o : bobj) : M nat := fun h => (inr (length h), h ++ [o]).
Definition read {A} (f : bobj -> option A) (l : nat) : M (option A) :=
  fun h => (inr (get f h l), h).
Definition write (l : nat) (upd : bobj -> bobj) : M unit :=
  fun h => (inr tt, match h !! l with Some o => <[l := upd o]> h | None => h end).

Notation "x <- m ;; k" := (bind m (fun x => k))
  (at level 100, m at next level, right associativity).

(** Lines 195-199. *)
Definition checkOrder (this : nat) (num : Z) : M unit :=
  o <- read b_order this ;;
  if js_gt o num then throw msg_order else ret tt.

(** Lines 120-131. *)
Definition element (this : nat) (value : string) : M nat :=
  obj <- alloc new_obj ;;
  n <- read b_elementNum this ;;
  _ <- write obj (set_elementNum (js_plus1 n)) ;;
  _ <- checkOrder this 1 ;;
  m <- read b_elementNum obj ;;
  if js_gt m 1 then throw msg_dup else
  _ <- write obj (set_order (Num 1)) ;;
  s <- read b_string this ;;
  _ <- write obj (set_string (js_str s +:+ value)) ;;
  ret obj.

(** Lines 133-144. *)
Definition id (this : nat) (value : string) : M nat :=
  obj <- alloc new_obj ;;
  n <- read b_idNum this ;;
  _ <- write obj (set_idNum (js_plus1 n)) ;;
  _ <- checkOrder this 2 ;;
  _ <- write obj (set_order (Num 2)) ;;
  m <- read b_idNum obj ;;
  if js_gt m 1 then throw msg_dup else
  s <- read b_string this ;;
  _ <- write obj (set_string (js_str s +:+ "#" +:+ value)) ;;
  ret obj.

(** Lines 146-153. *)
Definition class (this : nat) (value : string) : M nat :=
  obj <- alloc new_obj ;;
  _ <- checkOrder this 3 ;;
  _ <- write obj (set_order (Num 3)) ;;
  s <- read b_string this ;;
  _ <- write obj (set_string (js_str s +:+ "." +:+ value)) ;;
  ret obj.

(** Lines 155-162. *)
Definition attr (this : nat) (value : string) : M nat :=
  obj <- alloc new_obj ;;
  _ <- checkOrder this 4 ;;
  _ <- write obj (set_order (Num 4)) ;;
  s <- read b_string this ;;
  _ <- write obj (set_string (js_str s +:+ "[" +:+ value +:+ "]")) ;;
  ret obj.

(** Lines 164-171. *)
Definition pseudoClass (this : nat) (value : string) : M nat :=
  obj <- alloc new_obj ;;
  _ <- checkOrder this 5 ;;
  _ <- write obj (set_order (Num 5)) ;;
  s <- read b_string this ;;
  _ <- write obj (set_string (js_str s +:+ ":" +:+ value)) ;;
  ret obj.

(** Lines 173-184. *)
Definition pseudoElement (this : nat) (value : string) : M nat :=
  obj <- alloc new_obj ;;
  n <- read b_pseodoEl this ;;
  _ <- write obj (set_pseodoEl (js_plus1 n)) ;;
  _ <- checkOrder this 6 ;;
  _ <- write obj (set_order (Num 6)) ;;
  m <- read b_pseodoEl obj ;;
  if js_gt m 1 then throw msg_dup else
  s <- read b_string this ;;
  _ <- write obj (set_string (js_str s +:+ "::" +:+ value)) ;;
  ret obj.

(** Lines 185-189: [this] is not used. *)
Definition combine (this : nat) (selector1 : nat) (combinator : string)
    (selector2 : nat) : M nat :=
  obj <- alloc new_obj ;;
  s1 <- read b_string selector1 ;;
  s2 <- read b_string selector2 ;;
  _ <- write obj (set_string (js_str s1 +:+ " " +:+ combinator +:+ " " +:+ js_str s2)) ;;
  ret obj.

(** Lines 191-193: [undefined] when the chain has no [string]. *)
Definition stringify (this : nat) : M (option string) :=
  read b_string this.

(** Method call by kind. *)
Definition call (k : part) : nat -> string -> M nat :=
  match k with
  | Element => element | Id => id | Class => class
  | Attr => attr | PseudoClass => pseudoClass | PseudoElement => pseudoElement
  end.

(** A chain [this.k1(v1).k2(v2)...]. *)
Fixpoint run_chain (this : nat) (cs : list (part * string)) : M nat :=
  match cs with
  | [] => ret this
  | (k, v) :: cs' => o <- call k this v ;; run_chain o cs'
  end.

End Heap.

Module Pure.

(** The properties of one builder object as read through its prototype
    chain: [this.string] (as a template literal prints it), [this.order],
    [this.elementNum], [this.idNum], [this.pseodoEl]. *)
Record state := mk_state {
  st_string : string;
  st_order : option num;
  st_elementNum : option num;
  st_idNum : option num;
  st_pseodoEl : option num
}.

(** [cssSelectorBuilder] (lines 114-118). *)
Definition base : state :=
  mk_state "" None (Some (Num 0)) (Some (Num 0)) (Some (Num 0)).

(** Lines 195-199. *)
Definition checkOrder (s : state) (num : Z) : string + unit :=
  if js_gt (st_order s) num then inl msg_order else inr tt.

(** A new object inherits every property it does not set from
    [cssSelectorBuilder], not from [this]: the counters it does not set
    read as 0 again. *)
Definition element (s : state) (value : string) : string + state :=
  let n := js_plus1 (st_elementNum s) in
  match checkOrder s 1 with
  | inl e => inl e
  | inr _ =>
      if js_gt (Some n) 1 then inl msg_dup
      else inr (mk_state (st_string s +:+ value) (Some (Num 1))
                         (Some n) (Some (Num 0)) (Some (Num 0)))
  end.

Definition id (s : state) (value : string) : string + state :=
  let n := js_plus1 (st_idNum s) in
  match checkOrder s 2 with
  | inl e => inl e
  | inr _ =>
      if js_gt (Some n) 1 then inl msg_dup
      else inr (mk_state (st_string s +:+ "#" +:+ value) (Some (Num 2))
                         (Some (Num 0)) (Some n) (Some (Num 0)))
  end.

(** [class], [attr] and [pseudoClass] differ only in rank and text. *)
Definition plain (num : Z) (text : string) (s : state) : string + state :=
  match checkOrder s num with
  | inl e => inl e
  | inr _ => inr (mk_state (st_string s +:+ text) (Some (Num num))
                           (Some (Num 0)) (Some (Num 0)) (Some (Num 0)))
  end.

Definition class (s : state) (value : string) : string + state :=
  plain 3 ("." +:+ value) s.
Definition attr (s : state) (value : string) : string + state :=
  plain 4 ("[" +:+ value +:+ "]") s.
Definition pseudoClass (s : state) (value : string) : string + state :=
  plain 5 (":" +:+ value) s.

Definition pseudoElement (s : state) (value : string) : string + state :=
  let n := js_plus1 (st_pseodoEl s) in
  match checkOrder s 6 with
  | inl e => inl e
  | inr _ =>
      if js_gt (Some n) 1 then inl msg_dup
      else inr (mk_state (st_string s +:+ "::" +:+ value) (Some (Num 6))
                         (Some (Num 0)) (Some (Num 0)) (Some n))
  end.

(** Lines 185-189: only [string] is set. *)
Definition combine (selector1 : state) (combinator : string)
    (selector2 : state) : state :=
  mk_state (st_string selector1 +:+ " " +:+ combinator +:+ " " +:+ st_string selector2)
           None (Some (Num 0)) (Some (Num 0)) (Some (Num 0)).

Definition stringify (s : state) : string := st_string s.

Definition step (k : part) : state -> string -> string + state :=
  match k with
  | Element => element | Id => id | Class => class
  | Attr => attr | PseudoClass => pseudoClass | PseudoElement => pseudoElement
  end.

(** A chain of part calls; the first throw ends it. *)
Fixpoint chain (s : state) (cs : list (part * string)) : string + state :=
  match cs with
  | [] => inr s
  | (k, v) :: cs' =>
      match step k s v with
      | inl e => inl e
      | inr s' => chain s' cs'
      end
  end.

(** Helpers for stating properties of chains. *)

(** The counter property a singleton kind increments. *)
Definition counter (k : part) (s : state) : option num :=
  match k with
  | Element => st_elementNum s
  | Id => st_idNum s
  | PseudoElement => st_pseodoEl s
  | _ => None
  end.

(** Ranks of the calls of a chain never decrease. *)
Fixpoint ranks_nondecreasing (cs : list (part * string)) : bool :=
  match cs with
  | (k1, _) :: ((k2, _) :: _) as rest =>
      Z.leb (rank k1) (rank k2) && ranks_nondecreasing rest
  | _ => true
  end.

(** How often a kind is called in a chain. *)
Definition count_kind (k : part) (cs : list (part * string)) : nat :=
  length (List.filter (fun c => bool_decide (c.1 = k)) cs).

(** The text the calls of a chain append, in order. *)
Fixpoint rendered (cs : list (part * string)) : string :=
  match cs with
  | [] => ""
  | (k, v) :: cs' => render k v +:+ rendered cs'
  end.

(** The shape of every state a chain from [base] reaches: each singleton
    counter reads 0 or 1, and it reads 1 exactly when the last part added
    was of that kind. *)
Definition Inv (s : state) : Prop :=
  forall k, singleton k = true ->
    (counter k s = Some (Num 0) \/ counter k s = Some (Num 1)) /\
    (counter k s = Some (Num 1) <-> st_order s = Some (Num (rank k))).

End Pure.

Module Sim.
Import Heap.

(** What [Pure] sees of the object at [l]. *)
Definition view (h : heap) (l : nat) : Pure.state :=
  Pure.mk_state (js_str (get b_string h l)) (get b_order h l)
    (get b_elementNum h l) (get b_idNum h l) (get b_pseodoEl h l).

(** Heaps built by the builder: the base object at 0, every other object
    created by [Object.create(cssSelectorBuilder)]. *)
Definition wf (h : heap) : Prop :=
  h !! base_loc = Some cssSelectorBuilder /\
  (forall l o, h !! l = Some o -> l <> base_loc -> b_proto o = Some base_loc).

End Sim.

(** * [Rectangle] (lines 22-27) *)
Module Rect.
Section RectangleDef.
(** JavaScript values and the host's [*] operator (with its coercions). *)
Variable val : Type.
Variable js_mul : val -> val -> val.

(** The data properties of a [Rectangle] object. *)
Record rect := mk_rect { width : val; height : val }.

(** [new Rectangle(width, height)] stores both arguments as they are. *)
Definition Rectangle (w h : val) : rect := mk_rect w h.

(** [this.getArea = () => this.width * this.height]: the arrow function
  reads the object's properties when it is called. *)
Definition getArea (this : rect) : val := js_mul (width this) (height this).

(** Assignments [r.width = w] and [r.height = h]. *)
Definition set_width (r : rect) (w : val) : rect := mk_rect w (height r).
Definition set_height (r : rect) (h : val) : rect := mk_rect (width r) h.
End RectangleDef.
End Rect.

(** * [fromJSON] (lines 54-58) *)
Module Json.
#[local] Set Warnings "-register-all".

(** Values [JSON.parse] produces. *)
Inductive json :=
| JNull
| JBool (b : bool)
| JNum (z : Z)
| JStr (s : string)
| JArr (xs : list json)
| JObj (kvs : list (string * json)).

(** First binding of a key in a property list. *)
Fixpoint assoc {A} (p : string) (kvs : list (string * A)) : option A :=
  match kvs with
  | [] => None
  | (q, x) :: kvs' => if String.eqb p q then Some x else assoc p kvs'
  end.

Section FromJSON.
(** The host's [JSON.parse]: [inl] is the [SyntaxError] it throws. *)
Variable JSON_parse : string -> string + json.
(** Prototype objects, the values found on them, and a property read on
  a prototype (which follows that prototype's own chain). *)
Variable proto_obj : Type.
Variable proto_val : Type.
Variable proto_get : proto_obj -> string -> option proto_val.

(** An object made by [fromJSON]: its own properties and its prototype. *)
Record jobj := mk_jobj { j_own : list (string * json); j_proto : proto_obj }.

(** Own enumerable properties copied by the spread [{ ...v }]: those of
  an object, the indices of an array, the characters of a string, none
  of other primitives. *)
Definition spread (v : json) : list (string * json) :=
match v with
| JObj kvs => kvs
| JArr xs => imap (fun i x => (pretty i, x)) xs
| JStr s => imap (fun i c => (pretty i, JStr (String c EmptyString)))
                 (String.list_ascii_of_string s)
| _ => []
end.

(** [const obj = { ...JSON.parse(json) }; Object.setPrototypeOf(obj, proto);
  return obj;]  A throw of [JSON.parse] is not caught. *)
Definition fromJSON (proto : proto_obj) (json : string) : string + jobj :=
match JSON_parse json with
| inl err => inl err
| inr v => inr (mk_jobj (spread v) proto)
end.

(** A property read on such an object: own property, else the prototype. *)
Definition get_prop (o : jobj) (p : string) : option (json + proto_val) :=
match assoc p (j_own o) with
| Some j => Some (inl j)
| None => option_map inr (proto_get (j_proto o) p)
end.
End FromJSON.
End Json.

(** Inputs for the [fromJSON] example of the documentation. *)
(** The text [{"radius":10}]. *)
Definition radius_json : string := "{" +:+ dq +:+ "radius" +:+ dq +:+ ":10}".

(** A parser that knows this one text, and a [Circle.prototype] with a
    [getCircumference] method. *)
Definition radius_parse (t : string) : string + Json.json :=
  if String.eqb t radius_json then inr (Json.JObj [("radius", Json.JNum 10)])
  else inl "SyntaxError".
Definition circle_proto_get (_ : unit) (p : string) : option string :=
  if String.eqb p "getCircumference" then Some "function" else None.

(** * Facts about the heap model *)
Module SimFacts.
Import Heap Sim.

Lemma get_wf {A} (f : bobj -> option A) (h : heap) (l : nat) (o : bobj) :
  wf h -> h !! l = Some o ->
  get f h l = match f o with Some v => Some v | None => f cssSelectorBuilder end.
Proof.
  intros [H0 Hp] Hl. unfold get, base_loc in *. destruct l as [|l].
  - rewrite H0 in Hl. injection Hl as <-. simpl. rewrite H0.
    destruct (f cssSelectorBuilder); reflexivity.
  - simpl. rewrite Hl. destruct (f o); [reflexivity|].
    rewrite (Hp _ _ Hl) by discriminate.
    destruct l; simpl; rewrite H0; destruct (f cssSelectorBuilder); reflexivity.
Qed.

Lemma wf_snoc (h : heap) (o : bobj) :
  wf h -> b_proto o = Some base_loc -> wf (h ++ [o]).
Proof.
  intros [H0 Hp] Ho. split.
  - by apply lookup_app_l_Some.
  - intros l o' Hl Hne. apply lookup_app_Some in Hl as [Hl|[_ Hl]].
    + eauto.
    + apply list_lookup_singleton_Some in Hl as [_ <-]. exact Ho.
Qed.

Lemma get_snoc_old {A} (f : bobj -> option A) (h : heap) (o : bobj) (l : nat) :
  wf h -> b_proto o = Some base_loc -> (l < length h)%nat ->
  get f (h ++ [o]) l = get f h l.
Proof.
  intros Hwf Ho Hl. destruct (lookup_lt_is_Some_2 h l Hl) as [o' Ho'].
  rewrite (get_wf f h l o' Hwf Ho').
  apply (get_wf f (h ++ [o]) l o' (wf_snoc h o Hwf Ho)).
  by apply lookup_app_l_Some.
Qed.

Lemma get_snoc_new {A} (f : bobj -> option A) (h : heap) (o : bobj) :
  wf h -> b_proto o = Some base_loc ->
  get f (h ++ [o]) (length h) =
    match f o with Some v => Some v | None => f cssSelectorBuilder end.
Proof.
  intros Hwf Ho. apply (get_wf f _ _ o (wf_snoc h o Hwf Ho)).
  by apply list_lookup_middle.
Qed.

Lemma bind_alloc {B} (o : bobj) (k : nat -> M B) (h : heap) :
  bind (alloc o) k h = k (length h) (h ++ [o]).
Proof. reflexivity. Qed.

Lemma bind_read {A B} (f : bobj -> option A) (l : nat) (k : option A -> M B) (h : heap) :
  bind (read f l) k h = k (get f h l) h.
Proof. reflexivity. Qed.

Lemma bind_write_last {B} (h : heap) (o : bobj) (upd : bobj -> bobj) (k : unit -> M B) :
  bind (write (length h) upd) k (h ++ [o]) = k tt (h ++ [upd o]).
Proof.
  unfold bind, write. rewrite list_lookup_middle by done.
  rewrite insert_app_r_alt by lia. rewrite Nat.sub_diag. reflexivity.
Qed.

Lemma bind_checkOrder {B} (l : nat) (n : Z) (k : unit -> M B) (h : heap) :
  bind (checkOrder l n) k h =
    if js_gt (get b_order h l) n then (inl msg_order, h) else k tt h.
Proof. unfold checkOrder, bind, read. simpl. destruct (js_gt _ _); reflexivity. Qed.

Arguments get : simpl never.

Ltac mrun :=
  repeat progress (rewrite ?bind_alloc, ?bind_read, ?bind_checkOrder;
                   try rewrite bind_write_last; cbv beta).

Ltac simp_get Hwf Hl :=
  repeat progress (
    rewrite ?get_snoc_new by (exact Hwf || reflexivity);
    rewrite ?get_snoc_old by (exact Hwf || reflexivity || exact Hl)).

Ltac split_if :=
  match goal with
  | |- context [if js_gt ?x ?n then _ else _] =>
      let E := fresh "E" in destruct (js_gt x n) eqn:E
  end.

Ltac run_method Hwf Hl :=
  repeat (mrun; simp_get Hwf Hl; try split_if); unfold throw, ret; cbv beta iota.

Lemma call_sim (k : part) (l : nat) (v : string) (h : heap) :
  wf h -> (l < length h)%nat ->
  let '(res, h') := call k l v h in
  wf h' /\ (forall l0, (l0 < length h)%nat -> h' !! l0 = h !! l0) /\
  match res with
  | inl e => Pure.step k (view h l) v = inl e
  | inr l' => l' = length h /\ (l' < length h')%nat /\
              Pure.step k (view h l) v = inr (view h' l')
  end.
Proof.
  intros Hwf Hl. destruct k; simpl call;
    unfold element, id, class, attr, pseudoClass, pseudoElement.
  all: run_method Hwf Hl.
  all: split; [apply wf_snoc; [exact Hwf | reflexivity] |].
  all: split; [intros l0 Hl0; by apply lookup_app_l |].
  all: try (split; [reflexivity | split; [rewrite length_app; simpl; lia |]]).
  all: try unfold view at 2; rewrite ?get_snoc_new by (exact Hwf || reflexivity).
  all: simpl in *; unfold Pure.class, Pure.attr, Pure.pseudoClass.
  all: unfold Pure.element, Pure.id, Pure.plain, Pure.pseudoElement, Pure.checkOrder.
  all: simpl.
  all: repeat match goal with H : js_gt _ _ = _ |- _ => rewrite H; clear H end.
  all: repeat match goal with |- context [js_plus1 ?x] => destruct (js_plus1 x) end.
  all: simpl in *; try reflexivity.
  all: repeat match goal with |- context [Z.gtb ?a ?b] => destruct (Z.gtb a b) end.
  all: try reflexivity; try congruence.
Qed.

Lemma combine_sim (this s1 s2 : nat) (c : string) (h : heap) :
  wf h -> (s1 < length h)%nat -> (s2 < length h)%nat ->
  let '(res, h') := combine this s1 c s2 h in
  wf h' /\ (forall l0, (l0 < length h)%nat -> h' !! l0 = h !! l0) /\
  res = inr (length h) /\ (length h < length h')%nat /\
  view h' (length h) = Pure.combine (view h s1) c (view h s2).
Proof.
  intros Hwf H1 H2. unfold combine. mrun. unfold ret.
  split; [apply wf_snoc; [exact Hwf | reflexivity] |].
  split; [intros l0 Hl0; by apply lookup_app_l |].
  split; [reflexivity |]. split; [rewrite length_app; simpl; lia |].
  unfold view. rewrite !get_snoc_new by (exact Hwf || reflexivity).
  rewrite !get_snoc_old by (exact Hwf || reflexivity || assumption).
  reflexivity.
Qed.

Lemma get_frame {A} (f : bobj -> option A) (h h' : heap) (l : nat) :
  wf h -> wf h' -> h' !! l = h !! l -> get f h' l = get f h l.
Proof.
  intros Hw Hw' E. destruct (h !! l) as [o|] eqn:Ho.
  - rewrite (get_wf f h' l o Hw' E), (get_wf f h l o Hw Ho). reflexivity.
  - unfold get. simpl. rewrite E, Ho. reflexivity.
Qed.

Lemma view_frame (h h' : heap) (l : nat) :
  wf h -> wf h' -> h' !! l = h !! l -> view h' l = view h l.
Proof.
  intros Hw Hw' E. unfold view.
  rewrite (get_frame b_string h h' l), (get_frame b_order h h' l),
    (get_frame b_elementNum h h' l), (get_frame b_idNum h h' l),
    (get_frame b_pseodoEl h h' l) by assumption.
  reflexivity.
Qed.

(** In a builder heap every object has a [string] (its own or the
    base's [""]). *)
Lemma get_string_wf (h : heap) (l : nat) :
  wf h -> (l < length h)%nat -> get b_string h l = Some (Pure.st_string (view h l)).
Proof.
  intros Hw Hl. destruct (lookup_lt_is_Some_2 h l Hl) as [o Ho].
  unfold view. rewrite (get_wf _ h l o Hw Ho).
  destruct (b_string o); reflexivity.
Qed.

Lemma wf_init : wf init_heap.
Proof.
  split; [reflexivity |]. intros l o Hl Hne.
  destruct l as [|l]; [unfold base_loc in Hne; congruence |].
  destruct l; simpl in Hl; discriminate Hl.
Qed.

Lemma view_init : view init_heap base_loc = Pure.base.
Proof. reflexivity. Qed.

(** A call whose pure step succeeds returns a new object. *)
Lemma call_ok (k : part) (l : nat) (v : string) (h : heap) :
  wf h -> (l < length h)%nat ->
  (exists s', Pure.step k (view h l) v = inr s') ->
  exists l' h', call k l v h = (inr l', h').
Proof.
  intros Hw Hl [s' Hs]. pose proof (call_sim k l v h Hw Hl) as S.
  destruct (call k l v h) as [[e|l'] h'].
  - destruct S as [_ [_ S]]. congruence.
  - eauto.
Qed.

End SimFacts.

(** * Facts about the pure model *)
Module PureFacts.
Import Pure.

Ltac unfold_step :=
  unfold step, element, id, class, attr, pseudoClass, pseudoElement, plain,
    checkOrder in *; cbv zeta in *.

Ltac case_ifs :=
  repeat match goal with
  | H : context [if ?c then _ else _] |- _ => destruct c eqn:?
  | |- context [if ?c then _ else _] => destruct c eqn:?
  end.

Lemma step_string (k : part) (s s' : state) (v : string) :
  step k s v = inr s' -> st_string s' = st_string s +:+ render k v.
Proof.
  destruct k; unfold_step; case_ifs; intros H; try discriminate;
    injection H as <-; reflexivity.
Qed.

Lemma step_order (k : part) (s s' : state) (v : string) :
  step k s v = inr s' ->
  st_order s' = Some (Num (rank k)) /\ js_gt (st_order s) (rank k) = false.
Proof.
  destruct k; unfold_step; case_ifs; intros H; try discriminate;
    injection H as <-; auto.
Qed.

Lemma step_order_viol (k : part) (s : state) (v : string) :
  js_gt (st_order s) (rank k) = true -> step k s v = inl msg_order.
Proof. destruct k; unfold_step; simpl; intros ->; reflexivity. Qed.

Lemma step_counter_other (k k' : part) (s s' : state) (v : string) :
  step k s v = inr s' -> singleton k' = true -> k' <> k ->
  counter k' s' = Some (Num 0).
Proof.
  destruct k; unfold_step; case_ifs; intros H; try discriminate;
    injection H as <-; destruct k'; simpl; congruence.
Qed.

Lemma step_counter_self (k : part) (s s' : state) (v : string) :
  singleton k = true -> step k s v = inr s' ->
  counter k s' = Some (js_plus1 (counter k s)) /\
  js_gt (Some (js_plus1 (counter k s))) 1 = false.
Proof.
  destruct k; simpl; intros Hk; try discriminate; unfold_step; case_ifs;
    intros H; try discriminate; injection H as <-; auto.
Qed.

Lemma step_dup (k : part) (s : state) (v : string) :
  singleton k = true -> js_gt (st_order s) (rank k) = false ->
  js_gt (Some (js_plus1 (counter k s))) 1 = true -> step k s v = inl msg_dup.
Proof.
  destruct k; simpl; intros Hk; try discriminate; unfold_step;
    intros H1 H2; rewrite H1; simpl in *; rewrite H2; reflexivity.
Qed.

Lemma step_succeeds (k : part) (s : state) (v : string) :
  js_gt (st_order s) (rank k) = false ->
  (singleton k = true -> counter k s = Some (Num 0)) ->
  exists s', step k s v = inr s'.
Proof.
  intros H1 H2. destruct k; unfold_step; simpl in *; rewrite H1; eauto;
    rewrite H2 by reflexivity; simpl; eauto.
Qed.

Lemma Inv_base : Inv base.
Proof.
  intros k Hk. destruct k; try discriminate; simpl;
    (split; [auto | split; discriminate]).
Qed.

Lemma Inv_step (k : part) (s s' : state) (v : string) :
  Inv s -> step k s v = inr s' -> Inv s'.
Proof.
  intros HI Hs k' Hk'. destruct (step_order _ _ _ _ Hs) as [Ho _].
  destruct (decide (k' = k)) as [->|Hne].
  - destruct (step_counter_self _ _ _ _ Hk' Hs) as [Hc Hgt].
    destruct (HI k Hk') as [[H0|H0] _]; rewrite H0 in Hc, Hgt; simpl in *.
    + rewrite Hc, Ho. split; [auto | tauto].
    + discriminate.
  - rewrite (step_counter_other _ _ _ _ _ Hs Hk' Hne), Ho.
    split; [auto |]. split; [discriminate |].
    intros E. injection E as E. destruct k, k'; simpl in E; congruence.
Qed.

Lemma chain_app (s : state) (xs ys : list (part * string)) :
  chain s (xs ++ ys) =
    match chain s xs with inl e => inl e | inr s' => chain s' ys end.
Proof.
  revert s. induction xs as [|[k v] xs IH]; intros s; simpl; [reflexivity |].
  destruct (step k s v); [reflexivity | apply IH].
Qed.

Lemma chain_Inv (cs : list (part * string)) (s s' : state) :
  Inv s -> chain s cs = inr s' -> Inv s'.
Proof.
  revert s. induction cs as [|[k v] cs IH]; intros s HI; simpl.
  - intros H. injection H as <-. exact HI.
  - destruct (step k s v) eqn:E; [intros H; discriminate H |].
    apply IH. exact (Inv_step _ _ _ _ HI E).
Qed.

Lemma string_app_assoc (a b c : string) : (a +:+ b) +:+ c = a +:+ (b +:+ c).
Proof.
  induction a as [|x a IH]; [reflexivity |].
  change (String x ((a +:+ b) +:+ c) = String x (a +:+ (b +:+ c))).
  rewrite IH. reflexivity.
Qed.

Lemma string_app_nil_r (a : string) : a +:+ "" = a.
Proof.
  induction a as [|x a IH]; [reflexivity |].
  change (String x (a +:+ "") = String x a). rewrite IH. reflexivity.
Qed.

Lemma rank_inj (a b : part) : rank a = rank b -> a = b.
Proof. destruct a, b; simpl; congruence. Qed.

(** A singleton kind called again once the order has reached its rank:
    the order check fails first when the order is past the rank, the
    counter check fails when the order is at the rank. *)
Lemma singleton_again (k : part) (s : state) (v : string) (z : Z) :
  Inv s -> singleton k = true -> st_order s = Some (Num z) -> rank k <= z ->
  step k s v = inl (if Z.eqb z (rank k) then msg_dup else msg_order).
Proof.
  intros HI Hk Ho Hz. destruct (Z.eqb_spec z (rank k)) as [->|Hne].
  - apply step_dup; [exact Hk | rewrite Ho; simpl; lia |].
    destruct (HI k Hk) as [_ [_ Hc]]. rewrite (Hc Ho). simpl. reflexivity.
  - apply step_order_viol. rewrite Ho. simpl. lia.
Qed.

(** After a singleton kind, a successful continuation keeps the order at
    or past its rank, and strictly past it once anything was added. *)
Lemma chain_order_ge (k : part) (mid : list (part * string)) (s s' : state) (z : Z) :
  Inv s -> singleton k = true -> st_order s = Some (Num z) -> rank k <= z ->
  chain s mid = inr s' ->
  exists z', st_order s' = Some (Num z') /\ z <= z' /\ (mid <> [] -> rank k < z').
Proof.
  revert s z. induction mid as [|[k1 v1] mid IH]; intros s z HI Hk Ho Hz; simpl.
  - intros H. injection H as <-. exists z. split; [exact Ho |]. split; [lia | congruence].
  - destruct (step k1 s v1) as [e|s1] eqn:E; [intros H; discriminate H |]. intros Hc.
    destruct (step_order _ _ _ _ E) as [Ho1 Hgt]. rewrite Ho in Hgt. simpl in Hgt.
    assert (rank k < rank k1) as Hlt.
    { destruct (decide (k1 = k)) as [->|Hne].
      - rewrite (singleton_again k s v1 z HI Hk Ho Hz) in E. discriminate E.
      - assert (rank k1 <> rank k) by (intros Heq; apply Hne, rank_inj, Heq). lia. }
    destruct (IH s1 (rank k1) (Inv_step _ _ _ _ HI E) Hk Ho1 ltac:(lia) Hc)
      as [z' [Hz' [Hle _]]].
    exists z'. split; [exact Hz' |]. split; [lia |]. intros _. lia.
Qed.

Lemma count_kind_cons_eq (k : part) (v : string) (cs : list (part * string)) :
  count_kind k ((k, v) :: cs) = S (count_kind k cs).
Proof. unfold count_kind. simpl. rewrite bool_decide_eq_true_2 by reflexivity. reflexivity. Qed.

Lemma count_kind_cons_le (k : part) (c : part * string) (cs : list (part * string)) :
  (count_kind k cs <= count_kind k (c :: cs))%nat.
Proof. unfold count_kind. simpl. case_bool_decide; simpl; lia. Qed.

Lemma count_kind_in (k : part) (cs : list (part * string)) :
  In k (map fst cs) -> (1 <= count_kind k cs)%nat.
Proof.
  induction cs as [|[k1 v1] cs IH]; simpl; [tauto |]. intros [->|Hin].
  - rewrite count_kind_cons_eq. lia.
  - specialize (IH Hin). pose proof (count_kind_cons_le k (k1, v1) cs). lia.
Qed.

(** A chain with non-decreasing ranks and each singleton kind at most
    once succeeds from any state that admits its first call and whose
    counters of the singleton kinds it calls read 0. *)
Lemma chain_sorted_ok (cs : list (part * string)) (s : state) :
  ranks_nondecreasing cs = true ->
  (forall k, singleton k = true -> (count_kind k cs <= 1)%nat) ->
  (forall k v cs', cs = (k, v) :: cs' -> js_gt (st_order s) (rank k) = false) ->
  (forall k, singleton k = true -> In k (map fst cs) -> counter k s = Some (Num 0)) ->
  exists s', chain s cs = inr s' /\ st_string s' = st_string s +:+ rendered cs.
Proof.
  revert s. induction cs as [|[k v] cs IH]; intros s Hsort Hcnt Hfirst Hzero; simpl.
  - exists s. split; [reflexivity | symmetry; apply string_app_nil_r].
  - destruct (step_succeeds k s v (Hfirst k v cs eq_refl)) as [s1 E].
    { intros Hk. apply Hzero; [exact Hk | left; reflexivity]. }
    rewrite E. destruct (step_order _ _ _ _ E) as [Ho1 _].
    destruct (IH s1) as [s' [Hc Hs]].
    + destruct cs as [|[k2 v2] cs]; [reflexivity |].
      simpl in Hsort. apply andb_prop in Hsort as [_ Hsort]. exact Hsort.
    + intros k' Hk'. pose proof (Hcnt k' Hk'). pose proof (count_kind_cons_le k' (k, v) cs). lia.
    + intros k2 v2 cs' ->. simpl in Hsort. apply andb_prop in Hsort as [Hle _].
      rewrite Ho1. simpl. apply Z.leb_le in Hle. rewrite Z.gtb_ltb. apply Z.ltb_ge. lia.
    + intros k' Hk' Hin. destruct (decide (k' = k)) as [->|Hne].
      * pose proof (Hcnt k Hk'). rewrite count_kind_cons_eq in H.
        pose proof (count_kind_in k cs Hin). lia.
      * exact (step_counter_other _ _ _ _ _ E Hk' Hne).
    + exists s'. split; [exact Hc |]. rewrite Hs, (step_string _ _ _ _ E).
      simpl. apply string_app_assoc.
Qed.

(** Errors a step can throw. *)
Lemma step_err (k : part) (s : state) (v : string) (e : string) :
  step k s v = inl e -> e = msg_order \/ e = msg_dup.
Proof.
  destruct k; unfold_step; case_ifs; intros H; try discriminate;
    injection H as <-; auto.
Qed.

Lemma chain_err (cs : list (part * string)) (s : state) (e : string) :
  chain s cs = inl e -> e = msg_order \/ e = msg_dup.
Proof.
  revert s. induction cs as [|[k v] cs IH]; intros s Hc; cbn [chain] in Hc;
    [discriminate Hc |].
  destruct (step k s v) as [e'|s1] eqn:E.
  - injection Hc as <-. exact (step_err _ _ _ _ E).
  - exact (IH s1 Hc).
Qed.

(** Along a successful chain the [order] never decreases. *)
Lemma chain_order_mono (cs : list (part * string)) (s s' : state) (z : Z) :
  st_order s = Some (Num z) -> chain s cs = inr s' ->
  exists z', st_order s' = Some (Num z') /\ z <= z'.
Proof.
  revert s z. induction cs as [|[k v] cs IH]; intros s z Ho Hc; cbn [chain] in Hc.
  - injection Hc as <-. exists z. split; [exact Ho | lia].
  - destruct (step k s v) as [e|s1] eqn:E; [discriminate Hc |].
    destruct (step_order _ _ _ _ E) as [Ho1 Hgt]. rewrite Ho in Hgt. simpl in Hgt.
    destruct (IH s1 (rank k) Ho1 Hc) as [z' [Hz' Hle]].
    exists z'. split; [exact Hz' | lia].
Qed.

(** After a successful chain, [order] is at least the rank of every call. *)
Lemma chain_ranks_le (cs : list (part * string)) (s s' : state) :
  chain s cs = inr s' ->
  forall c, In c cs -> exists z, st_order s' = Some (Num z) /\ rank c.1 <= z.
Proof.
  revert s. induction cs as [|[k v] cs IH]; intros s Hc c Hin; [destruct Hin |].
  cbn [chain] in Hc. destruct (step k s v) as [e|s1] eqn:E; [discriminate Hc |].
  destruct Hin as [<-|Hin].
  - destruct (step_order _ _ _ _ E) as [Ho1 _].
    destruct (chain_order_mono cs s1 s' (rank k) Ho1 Hc) as [z' [Hz' Hle]].
    exists z'. split; [exact Hz' | exact Hle].
  - exact (IH s1 Hc c Hin).
Qed.

Lemma ranks_cons2 (k1 k2 : part) (v1 v2 : string) (cs : list (part * string)) :
  ranks_nondecreasing ((k1, v1) :: (k2, v2) :: cs) =
    Z.leb (rank k1) (rank k2) && ranks_nondecreasing ((k2, v2) :: cs).
Proof. reflexivity. Qed.

Lemma chain_sorted (cs : list (part * string)) (s s' : state) :
  chain s cs = inr s' -> ranks_nondecreasing cs = true.
Proof.
  revert s. induction cs as [|[k1 v1] cs IH]; intros s Hc; [reflexivity |].
  cbn [chain] in Hc. destruct (step k1 s v1) as [e|s1] eqn:E1; [discriminate Hc |].
  destruct cs as [|[k2 v2] cs']; [reflexivity |].
  rewrite ranks_cons2. apply andb_true_intro. split; [| exact (IH s1 Hc)].
  cbn [chain] in Hc. destruct (step k2 s1 v2) as [e|s2] eqn:E2; [discriminate Hc |].
  destruct (step_order _ _ _ _ E1) as [Ho1 _]. destruct (step_order _ _ _ _ E2) as [_ Hgt].
  rewrite Ho1 in Hgt. simpl in Hgt. apply Z.leb_le. lia.
Qed.

Lemma count_kind_cons_neq (k k1 : part) (v : string) (cs : list (part * string)) :
  k1 <> k -> count_kind k ((k1, v) :: cs) = count_kind k cs.
Proof.
  intros Hne. unfold count_kind. simpl.
  rewrite bool_decide_eq_false_2 by exact Hne. reflexivity.
Qed.

(** Once the [order] has reached the rank of a singleton kind, a successful
    continuation does not call that kind. *)
Lemma chain_count_zero (k : part) (cs : list (part * string)) (s s' : state) (z : Z) :
  Inv s -> singleton k = true -> st_order s = Some (Num z) -> rank k <= z ->
  chain s cs = inr s' -> count_kind k cs = 0%nat.
Proof.
  revert s z. induction cs as [|[k1 v1] cs IH]; intros s z HI Hk Ho Hz Hc;
    [reflexivity |].
  cbn [chain] in Hc. destruct (step k1 s v1) as [e|s1] eqn:E; [discriminate Hc |].
  destruct (decide (k1 = k)) as [->|Hne].
  - rewrite (singleton_again k s v1 z HI Hk Ho Hz) in E. discriminate E.
  - rewrite count_kind_cons_neq by exact Hne.
    destruct (step_order _ _ _ _ E) as [Ho1 Hgt]. rewrite Ho in Hgt. simpl in Hgt.
    apply (IH s1 (rank k1) (Inv_step _ _ _ _ HI E) Hk Ho1); [lia | exact Hc].
Qed.

Lemma chain_count_le1 (k : part) (cs : list (part * string)) (s s' : state) :
  Inv s -> singleton k = true -> chain s cs = inr s' -> (count_kind k cs <= 1)%nat.
Proof.
  revert s. induction cs as [|[k1 v1] cs IH]; intros s HI Hk Hc;
    [unfold count_kind; simpl; lia |].
  cbn [chain] in Hc. destruct (step k1 s v1) as [e|s1] eqn:E; [discriminate Hc |].
  destruct (decide (k1 = k)) as [->|Hne].
  - rewrite count_kind_cons_eq. destruct (step_order _ _ _ _ E) as [Ho1 _].
    rewrite (chain_count_zero k cs s1 s' (rank k) (Inv_step _ _ _ _ HI E) Hk Ho1
               ltac:(lia) Hc).
    lia.
  - rewrite count_kind_cons_neq by exact Hne. exact (IH s1 (Inv_step _ _ _ _ HI E) Hk Hc).
Qed.

(** A successful chain appends the text of its parts. *)
Lemma chain_string (cs : list (part * string)) (s s' : state) :
  chain s cs = inr s' -> st_string s' = st_string s +:+ rendered cs.
Proof.
  revert s. induction cs as [|[k v] cs IH]; intros s Hc; cbn [chain] in Hc.
  - injection Hc as <-. symmetry. apply string_app_nil_r.
  - destruct (step k s v) as [e|s1] eqn:E; [discriminate Hc |].
    rewrite (IH s1 Hc), (step_string _ _ _ _ E). cbn [rendered].
    apply string_app_assoc.
Qed.

(** The [order] after a successful chain is the rank of its last call. *)
Lemma chain_last_order (pre : list (part * string)) (k : part) (v : string)
    (s0 s : state) :
  chain s0 (pre ++ [(k, v)]) = inr s -> st_order s = Some (Num (rank k)).
Proof.
  intros Hc. rewrite chain_app in Hc.
  destruct (chain s0 pre) as [e|s1]; [discriminate Hc |].
  cbn [chain] in Hc. destruct (step k s1 v) as [e|s2] eqn:E; [discriminate Hc |].
  injection Hc as <-. exact (proj1 (step_order _ _ _ _ E)).
Qed.

(** Text in front of the receiver's [string] is carried through a step. *)
Lemma step_prefix (p : string) (k : part) (x : string) (o e i q : option num)
    (v : string) :
  step k (mk_state (p +:+ x) o e i q) v =
  match step k (mk_state x o e i q) v with
  | inl err => inl err
  | inr s => inr (mk_state (p +:+ st_string s) (st_order s) (st_elementNum s)
                           (st_idNum s) (st_pseodoEl s))
  end.
Proof.
  destruct k; unfold_step; simpl; case_ifs; simpl;
    rewrite ?string_app_assoc; reflexivity.
Qed.

Lemma chain_prefix (p : string) (cs : list (part * string)) (x : string)
    (o e i q : option num) :
  chain (mk_state (p +:+ x) o e i q) cs =
  match chain (mk_state x o e i q) cs with
  | inl err => inl err
  | inr s => inr (mk_state (p +:+ st_string s) (st_order s) (st_elementNum s)
                           (st_idNum s) (st_pseodoEl s))
  end.
Proof.
  revert x o e i q. induction cs as [|[k v] cs IH]; intros x o e i q; [reflexivity |].
  cbn [chain]. rewrite step_prefix.
  destruct (step k (mk_state x o e i q) v) as [err|[x1 o1 e1 i1 q1]]; [reflexivity |].
  cbn [st_string st_order st_elementNum st_idNum st_pseodoEl]. apply IH.
Qed.

End PureFacts.

(** * Chains of calls on the heap *)
Module ChainFacts.
Import Heap Sim.

Lemma frame_len (h h' : heap) :
  (forall l0, (l0 < length h)%nat -> h' !! l0 = h !! l0) -> (length h <= length h')%nat.
Proof.
  intros F. destruct (decide (length h <= length h')%nat) as [|Hn]; [done |].
  assert (Hlt : (length h' < length h)%nat) by lia.
  destruct (lookup_lt_is_Some_2 h _ Hlt) as [o Ho].
  rewrite <- (F _ Hlt) in Ho. apply lookup_lt_Some in Ho. lia.
Qed.

Lemma pure_chain_cons (s : Pure.state) (k : part) (v : string)
    (cs : list (part * string)) :
  Pure.chain s ((k, v) :: cs) =
    match Pure.step k s v with inl e => inl e | inr s' => Pure.chain s' cs end.
Proof. reflexivity. Qed.

Lemma run_chain_cons (l : nat) (k : part) (v : string) (cs : list (part * string))
    (h : heap) :
  run_chain l ((k, v) :: cs) h =
    match call k l v h with
    | (inl e, h') => (inl e, h')
    | (inr l', h') => run_chain l' cs h'
    end.
Proof. reflexivity. Qed.

(** A chain of calls on the objects does what [Pure.chain] does on the
    fields read through the receiver's prototype chain, and leaves every
    object that existed before unchanged. *)
Lemma run_chain_sim (cs : list (part * string)) (l : nat) (h : heap) :
  wf h -> (l < length h)%nat ->
  let '(res, h') := run_chain l cs h in
  wf h' /\ (forall l0, (l0 < length h)%nat -> h' !! l0 = h !! l0) /\
  match res with
  | inl e => Pure.chain (view h l) cs = inl e
  | inr l' => (l' < length h')%nat /\ Pure.chain (view h l) cs = inr (view h' l')
  end.
Proof.
  revert l h. induction cs as [|[k v] cs IH]; intros l h Hw Hl.
  - split; [exact Hw |]. split; [auto |]. split; [exact Hl | reflexivity].
  - rewrite run_chain_cons, pure_chain_cons.
    pose proof (SimFacts.call_sim k l v h Hw Hl) as S.
    destruct (call k l v h) as [[e|l1] h1]; destruct S as [Hw1 [F1 R1]].
    + split; [exact Hw1 |]. split; [exact F1 |]. rewrite R1. reflexivity.
    + destruct R1 as [-> [Hlt1 Hstep]]. rewrite Hstep.
      pose proof (frame_len h h1 F1) as Hle.
      specialize (IH (length h) h1 Hw1 Hlt1).
      destruct (run_chain (length h) cs h1) as [res h2].
      destruct IH as [Hw2 [F2 R2]].
      split; [exact Hw2 |]. split; [| exact R2].
      intros l0 H0. rewrite F2 by lia. auto.
Qed.

(** [stringify()] of an object of a builder heap. *)
Lemma stringify_view (h : heap) (l : nat) :
  wf h -> (l < length h)%nat ->
  fst (stringify l h) = inr (Some (Pure.st_string (view h l))).
Proof.
  intros Hw Hl. unfold stringify, read. simpl.
  rewrite SimFacts.get_string_wf by assumption. reflexivity.
Qed.

End ChainFacts.

(** * Facts about property lists built by [imap] *)
Module JsonFacts.
Import Json.

Lemma assoc_imap {A B} (key : nat -> string) (F : nat -> A -> B)
    (Hinj : forall a b, key a = key b -> a = b) (xs : list A) (i : nat) :
  assoc (key i) (imap (fun j x => (key j, F j x)) xs) = F i <$> xs !! i.
Proof.
  revert key F Hinj i. induction xs as [|x xs IH]; intros key F Hinj i; [reflexivity |].
  rewrite imap_cons. cbn [assoc].
  destruct i as [|i].
  - rewrite String.eqb_refl. reflexivity.
  - destruct (String.eqb_spec (key (S i)) (key 0%nat)) as [E|_].
    + apply Hinj in E. discriminate E.
    + apply (IH (fun j => key (S j)) (fun j => F (S j))).
      intros a b E. apply Hinj in E. injection E as E. exact E.
Qed.

Lemma assoc_imap_none {A B} (key : nat -> string) (F : nat -> A -> B)
    (xs : list A) (p : string) :
  (forall i, (i < length xs)%nat -> p <> key i) ->
  assoc p (imap (fun j x => (key j, F j x)) xs) = None.
Proof.
  revert key F. induction xs as [|x xs IH]; intros key F Hp; [reflexivity |].
  rewrite imap_cons. cbn [assoc].
  destruct (String.eqb_spec p (key 0%nat)) as [E|_].
  - exfalso. apply (Hp 0%nat); [simpl; lia | exact E].
  - apply (IH (fun j => key (S j)) (fun j => F (S j))).
    intros i Hi. apply Hp. simpl. lia.
Qed.

Lemma list_ascii_get (s : string) (i : nat) :
  String.list_ascii_of_string s !! i = String.get i s.
Proof.
  revert i. induction s as [|c s IH]; intros i; [reflexivity |].
  destruct i; [reflexivity | apply IH].
Qed.

Lemma list_ascii_length (s : string) :
  length (String.list_ascii_of_string s) = String.length s.
Proof. induction s as [|c s IH]; [reflexivity | simpl; rewrite IH; reflexivity]. Qed.

End JsonFacts.

(** * The claims *)

Import PureFacts.

(** C1 (corrected).  Calling [element], [id] or [pseudoElement] a second
    time in a lineage started at [cssSelectorBuilder] always throws.  The
    error is the duplicate-part message when the second call directly
    follows the first, and the order message when other parts were added
    successfully in between: [checkOrder] runs before the counter test,
    and every other kind has a higher rank. *)
Theorem C1_singleton_twice_throws (k : part) (pre mid post : list (part * string))
    (v1 v2 : string) :
  singleton k = true ->
  (exists e, Pure.chain Pure.base (pre ++ (k, v1) :: mid ++ (k, v2) :: post) = inl e) /\
  (forall s, Pure.chain Pure.base (pre ++ [(k, v1)]) = inr s -> mid = [] ->
     Pure.chain Pure.base (pre ++ (k, v1) :: mid ++ (k, v2) :: post) = inl msg_dup) /\
  (forall s, Pure.chain Pure.base (pre ++ (k, v1) :: mid) = inr s -> mid <> [] ->
     Pure.chain Pure.base (pre ++ (k, v1) :: mid ++ (k, v2) :: post) = inl msg_order).
Proof.
  intros Hk.
  assert (Hsplit : pre ++ (k, v1) :: mid ++ (k, v2) :: post =
                   (pre ++ (k, v1) :: mid) ++ (k, v2) :: post)
    by (rewrite <- app_assoc; reflexivity).
  assert (Hpre : forall s, Pure.chain Pure.base (pre ++ (k, v1) :: mid) = inr s ->
            Pure.Inv s /\ exists z, Pure.st_order s = Some (Num z) /\ rank k <= z /\
                                    (mid <> [] -> rank k < z)).
  { intros s Hs. rewrite chain_app in Hs.
    destruct (Pure.chain Pure.base pre) as [e|s0] eqn:E0; [discriminate Hs |].
    simpl in Hs. destruct (Pure.step k s0 v1) as [e|s1] eqn:E1; [discriminate Hs |].
    pose proof (chain_Inv _ _ _ Inv_base E0) as HI0.
    pose proof (Inv_step _ _ _ _ HI0 E1) as HI1.
    destruct (step_order _ _ _ _ E1) as [Ho1 _].
    destruct (chain_order_ge k mid s1 s (rank k) HI1 Hk Ho1 ltac:(lia) Hs)
      as [z [Hz [Hle Hlt]]].
    split; [exact (chain_Inv _ _ _ HI1 Hs) |]. exists z. auto. }
  split; [| split].
  - rewrite Hsplit, chain_app.
    destruct (Pure.chain Pure.base (pre ++ (k, v1) :: mid)) as [e|s] eqn:E; [eauto |].
    destruct (Hpre s eq_refl) as [HI [z [Hz [Hle _]]]].
    simpl. rewrite (singleton_again k s v2 z HI Hk Hz Hle). eauto.
  - intros s Hs ->. simpl in Hpre. rewrite Hsplit, chain_app. simpl. rewrite Hs.
    destruct (Hpre s Hs) as [HI [z [Hz [Hle _]]]].
    destruct (Pure.chain Pure.base pre) as [e|s0] eqn:E0.
    + rewrite chain_app, E0 in Hs. discriminate Hs.
    + rewrite chain_app, E0 in Hs. simpl in Hs.
      destruct (Pure.step k s0 v1) as [e|s1] eqn:E1; [discriminate Hs |].
      injection Hs as <-. destruct (step_order _ _ _ _ E1) as [Ho1 _].
      rewrite Ho1 in Hz. injection Hz as <-.
      rewrite (singleton_again k s1 v2 (rank k) HI Hk Ho1 ltac:(lia)), Z.eqb_refl.
      reflexivity.
  - intros s Hs Hne. rewrite Hsplit, chain_app, Hs. simpl.
    destruct (Hpre s Hs) as [HI [z [Hz [Hle Hlt]]]].
    rewrite (singleton_again k s v2 z HI Hk Hz Hle).
    specialize (Hlt Hne). destruct (Z.eqb_spec z (rank k)); [lia | reflexivity].
Qed.

Lemma C1_witness :
  singleton Id = true /\
  Pure.chain Pure.base ([(Element, "a")] ++ (Id, "x") :: [(Class, "c")] ++ (Id, "y") :: [])
    = inl msg_order.
Proof.
  split; [reflexivity |].
  destruct (C1_singleton_twice_throws Id [(Element, "a")] [(Class, "c")] [] "x" "y"
              eq_refl) as [_ [_ H]].
  apply (H (Pure.mk_state "a#x.c" (Some (Num 3)) (Some (Num 0)) (Some (Num 0)) (Some (Num 0)))).
  - reflexivity.
  - discriminate.
Defined.

(** C1, as stated, fails: [element('a').class('b').element('c')] throws the
    order message, not the duplicate-part message. *)
Lemma C1_counterexample :
  fst (Heap.run_chain Heap.base_loc [(Element, "a"); (Class, "b"); (Element, "c")]
         Heap.init_heap) = inl msg_order /\
  msg_order <> msg_dup.
Proof. split; [vm_compute; reflexivity | unfold msg_order, msg_dup; discriminate]. Qed.

(** C2.  From [cssSelectorBuilder], a chain whose ranks never decrease and
    that calls each of [element], [id], [pseudoElement] at most once
    succeeds, and its [stringify()] is the text of its parts in order; a
    call whose rank is below the [order] of its receiver throws the order
    message; a call whose rank equals that [order] passes [checkOrder]. *)
Theorem C2_order_property :
  (forall cs, Pure.ranks_nondecreasing cs = true ->
     (forall k, singleton k = true -> (Pure.count_kind k cs <= 1)%nat) ->
     exists s, Pure.chain Pure.base cs = inr s /\ Pure.stringify s = Pure.rendered cs) /\
  (forall s k v z, Pure.st_order s = Some (Num z) -> rank k < z ->
     Pure.step k s v = inl msg_order) /\
  (forall s k, Pure.st_order s = Some (Num (rank k)) ->
     Pure.checkOrder s (rank k) = inr tt).
Proof.
  split; [| split].
  - intros cs Hsort Hcnt.
    destruct (chain_sorted_ok cs Pure.base Hsort Hcnt) as [s [Hc Hs]].
    + intros k v cs' _. reflexivity.
    + intros k Hk _. destruct k; try discriminate Hk; reflexivity.
    + exists s. split; [exact Hc | exact Hs].
  - intros s k v z Ho Hlt. apply step_order_viol. rewrite Ho. simpl. lia.
  - intros s k Ho. unfold Pure.checkOrder. rewrite Ho. simpl.
    rewrite Z.gtb_ltb, Z.ltb_irrefl. reflexivity.
Qed.

Lemma C2_witness :
  Pure.chain Pure.base [(Element, "a"); (Id, "b"); (Class, "c"); (Class, "d");
                        (Attr, "e"); (PseudoClass, "f"); (PseudoElement, "g")]
    = inr (Pure.mk_state "a#b.c.d[e]:f::g" (Some (Num 6)) (Some (Num 0))
             (Some (Num 0)) (Some (Num 1))) /\
  Pure.step Element
    (Pure.mk_state "a.c" (Some (Num 3)) (Some (Num 0)) (Some (Num 0)) (Some (Num 0))) "x"
    = inl msg_order /\
  Pure.checkOrder
    (Pure.mk_state "a.c" (Some (Num 3)) (Some (Num 0)) (Some (Num 0)) (Some (Num 0))) 3
    = inr tt.
Proof.
  destruct C2_order_property as [Ha [Hb Hc]].
  split; [| split].
  - destruct (Ha [(Element, "a"); (Id, "b"); (Class, "c"); (Class, "d");
                  (Attr, "e"); (PseudoClass, "f"); (PseudoElement, "g")])
      as [s [Hs _]].
    + reflexivity.
    + intros k Hk. destruct k; try discriminate Hk; vm_compute; lia.
    + rewrite Hs. vm_compute in Hs. symmetry. exact Hs.
  - apply (Hb _ Element "x" 3); [reflexivity | simpl; lia].
  - apply (Hc _ Class). reflexivity.
Defined.

(** C4.  In a lineage from [cssSelectorBuilder], a singleton kind called
    right after a successful call of the same kind passes [checkOrder]
    (same rank) and throws the duplicate-part message. *)
Theorem C4_singleton_consecutive_dup (cs : list (part * string)) (s s' : Pure.state)
    (k : part) (v1 v2 : string) :
  Pure.chain Pure.base cs = inr s -> singleton k = true ->
  Pure.step k s v1 = inr s' ->
  Pure.checkOrder s' (rank k) = inr tt /\ Pure.step k s' v2 = inl msg_dup.
Proof.
  intros Hc Hk E.
  pose proof (Inv_step _ _ _ _ (chain_Inv _ _ _ Inv_base Hc) E) as HI.
  destruct (step_order _ _ _ _ E) as [Ho _]. split.
  - unfold Pure.checkOrder. rewrite Ho. simpl.
    rewrite Z.gtb_ltb, Z.ltb_irrefl. reflexivity.
  - rewrite (singleton_again k s' v2 (rank k) HI Hk Ho ltac:(lia)), Z.eqb_refl.
    reflexivity.
Qed.

Lemma C4_witness :
  Pure.step PseudoElement
    (Pure.mk_state "a::b" (Some (Num 6)) (Some (Num 0)) (Some (Num 0)) (Some (Num 1))) "c"
    = inl msg_dup.
Proof.
  apply (C4_singleton_consecutive_dup [(Element, "a")]
           (Pure.mk_state "a" (Some (Num 1)) (Some (Num 1)) (Some (Num 0)) (Some (Num 0)))
           _ PseudoElement "b" "c"); reflexivity.
Defined.

(** C9.  Every state a successful chain from [cssSelectorBuilder] reaches
    has each singleton counter at 0 or 1, no [order] when nothing was added
    and otherwise the rank of the last added kind as [order]; a further call
    that succeeds sets [order] to its rank, which is not below the previous
    [order], and leaves every singleton counter at 0 or 1.  Calls that
    would break this end in [inl], with no new state. *)
Theorem C9_builder_invariant (cs : list (part * string)) (s : Pure.state) :
  Pure.chain Pure.base cs = inr s ->
  (forall k, singleton k = true ->
     Pure.counter k s = Some (Num 0) \/ Pure.counter k s = Some (Num 1)) /\
  (cs = [] -> Pure.st_order s = None) /\
  (forall pre k v, cs = pre ++ [(k, v)] -> Pure.st_order s = Some (Num (rank k))) /\
  (forall k v s', Pure.step k s v = inr s' ->
     Pure.st_order s' = Some (Num (rank k)) /\
     (Pure.st_order s = None \/
      exists z, Pure.st_order s = Some (Num z) /\ z <= rank k) /\
     (forall k', singleton k' = true ->
        Pure.counter k' s' = Some (Num 0) \/ Pure.counter k' s' = Some (Num 1))).
Proof.
  intros Hc. pose proof (chain_Inv _ _ _ Inv_base Hc) as HI.
  assert (Hlast : forall pre k v, cs = pre ++ [(k, v)] ->
                    Pure.st_order s = Some (Num (rank k))).
  { intros pre k v ->. rewrite chain_app in Hc.
    destruct (Pure.chain Pure.base pre) as [e|s0]; [discriminate Hc |].
    simpl in Hc. destruct (Pure.step k s0 v) as [e|s1] eqn:E; [discriminate Hc |].
    injection Hc as <-. exact (proj1 (step_order _ _ _ _ E)). }
  split; [| split; [| split]].
  - intros k Hk. exact (proj1 (HI k Hk)).
  - intros ->. simpl in Hc. injection Hc as <-. reflexivity.
  - exact Hlast.
  - intros k v s' E. pose proof (Inv_step _ _ _ _ HI E) as HI'.
    destruct (step_order _ _ _ _ E) as [Ho' Hgt]. split; [exact Ho' | split].
    + destruct cs as [|c0 cs0].
      * simpl in Hc. injection Hc as <-. left. reflexivity.
      * destruct (exists_last (l := c0 :: cs0) ltac:(discriminate))
          as [pre [[k0 v0] Hpre]].
        rewrite Hpre in Hlast. right. exists (rank k0). split; [exact (Hlast pre k0 v0 eq_refl) |].
        rewrite (Hlast pre k0 v0 eq_refl) in Hgt. simpl in Hgt. lia.
    + intros k' Hk'. exact (proj1 (HI' k' Hk')).
Qed.

Lemma C9_witness :
  Pure.st_order
    (Pure.mk_state "a.b" (Some (Num 3)) (Some (Num 0)) (Some (Num 0)) (Some (Num 0)))
    = Some (Num (rank Class)).
Proof.
  destruct (C9_builder_invariant [(Element, "a"); (Class, "b")]
              (Pure.mk_state "a.b" (Some (Num 3)) (Some (Num 0)) (Some (Num 0))
                 (Some (Num 0))) eq_refl) as [_ [_ [H _]]].
  apply (H [(Element, "a")] Class "b"). reflexivity.
Defined.

(** C3.  A part call writes only to the object it creates: every object
    that existed before it, the receiver included, is unchanged whether the
    call returns or throws, and the receiver can still be used.  Two calls
    made one after the other on the same receiver are independent: each
    result's [stringify()] is the receiver's text followed by its own part
    only, and the second call behaves as it would on the untouched
    receiver. *)
Theorem C3_no_mutation_independent_branches (h : Heap.heap) (l : nat)
    (k1 k2 : part) (v1 v2 : string) :
  Sim.wf h -> (l < length h)%nat ->
  let '(r1, h1) := Heap.call k1 l v1 h in
  let '(r2, h2) := Heap.call k2 l v2 h1 in
  (forall l0, (l0 < length h)%nat -> h1 !! l0 = h !! l0 /\ h2 !! l0 = h !! l0) /\
  Sim.view h1 l = Sim.view h l /\ Sim.view h2 l = Sim.view h l /\
  Sim.wf h1 /\ (l < length h1)%nat /\
  (forall l1, r1 = inr l1 ->
     (length h <= l1)%nat /\
     fst (Heap.stringify l1 h2) =
       inr (Some (Pure.stringify (Sim.view h l) +:+ render k1 v1))) /\
  (forall e, r2 = inl e -> Pure.step k2 (Sim.view h l) v2 = inl e) /\
  (forall l2, r2 = inr l2 ->
     (length h1 <= l2)%nat /\
     fst (Heap.stringify l2 h2) =
       inr (Some (Pure.stringify (Sim.view h l) +:+ render k2 v2))).
Proof.
  intros Hw Hl.
  pose proof (SimFacts.call_sim k1 l v1 h Hw Hl) as S1.
  destruct (Heap.call k1 l v1 h) as [r1 h1] eqn:E1.
  destruct S1 as [Hw1 [F1 R1]].
  assert (Hlen1 : forall l0, (l0 < length h)%nat -> (l0 < length h1)%nat).
  { intros l0 H0. destruct (lookup_lt_is_Some_2 h l0 H0) as [o Ho].
    apply (lookup_lt_Some h1 l0 o). rewrite F1 by exact H0. exact Ho. }
  pose proof (SimFacts.call_sim k2 l v2 h1 Hw1 (Hlen1 l Hl)) as S2.
  destruct (Heap.call k2 l v2 h1) as [r2 h2] eqn:E2.
  destruct S2 as [Hw2 [F2 R2]].
  assert (V1 : Sim.view h1 l = Sim.view h l)
    by (apply SimFacts.view_frame; auto).
  assert (V2 : Sim.view h2 l = Sim.view h l)
    by (rewrite <- V1; apply SimFacts.view_frame; auto).
  split; [intros l0 H0; split; [auto | rewrite F2 by auto; auto] |].
  split; [exact V1 |]. split; [exact V2 |]. split; [exact Hw1 |].
  split; [auto |]. split; [| split].
  - intros l1 ->. destruct R1 as [-> [Hlt Hstep]]. split; [lia |].
    unfold Heap.stringify, Heap.read. simpl.
    rewrite (SimFacts.get_frame _ h1 h2) by auto.
    rewrite SimFacts.get_string_wf by auto.
    rewrite (step_string _ _ _ _ Hstep). reflexivity.
  - intros e ->. rewrite <- V1. exact R2.
  - intros l2 ->. destruct R2 as [-> [Hlt Hstep]]. split; [lia |].
    unfold Heap.stringify, Heap.read. simpl.
    rewrite SimFacts.get_string_wf by auto.
    rewrite (step_string _ _ _ _ Hstep), V1. reflexivity.
Qed.

Lemma C3_witness :
  Sim.wf Heap.init_heap /\ (Heap.base_loc < length Heap.init_heap)%nat /\
  Sim.view (snd (Heap.call Element Heap.base_loc "a" Heap.init_heap)) Heap.base_loc
    = Sim.view Heap.init_heap Heap.base_loc.
Proof.
  split; [exact SimFacts.wf_init |]. split; [cbv; lia |].
  pose proof (C3_no_mutation_independent_branches Heap.init_heap Heap.base_loc
                Element Class "a" "b" SimFacts.wf_init ltac:(cbv; lia)) as H.
  destruct (Heap.call Element Heap.base_loc "a" Heap.init_heap) as [r1 h1].
  destruct (Heap.call Class Heap.base_loc "b" h1) as [r2 h2].
  exact (proj1 (proj2 H)).
Defined.

(** C5.  [combine(A, c, B)] returns a new object whose [stringify()] is
    [A.stringify() + ' ' + c + ' ' + B.stringify()], and no object that
    existed before, [A] and [B] included, is changed. *)
Theorem C5_combine_text (h : Heap.heap) (this s1 s2 : nat) (c a b : string) :
  Sim.wf h -> (s1 < length h)%nat -> (s2 < length h)%nat ->
  fst (Heap.stringify s1 h) = inr (Some a) ->
  fst (Heap.stringify s2 h) = inr (Some b) ->
  let '(res, h') := Heap.combine this s1 c s2 h in
  (exists l', res = inr l' /\
     fst (Heap.stringify l' h') = inr (Some (a +:+ " " +:+ c +:+ " " +:+ b))) /\
  (forall l0, (l0 < length h)%nat -> h' !! l0 = h !! l0).
Proof.
  intros Hw H1 H2 Ha Hb.
  pose proof (SimFacts.combine_sim this s1 s2 c h Hw H1 H2) as S.
  destruct (Heap.combine this s1 c s2 h) as [res h'].
  destruct S as [Hw' [F [-> [Hlt Hv]]]].
  split; [| exact F]. exists (length h). split; [reflexivity |].
  unfold Heap.stringify, Heap.read in *. simpl in *.
  rewrite SimFacts.get_string_wf by assumption. rewrite Hv.
  rewrite SimFacts.get_string_wf in Ha, Hb by assumption.
  injection Ha as <-. injection Hb as <-. reflexivity.
Qed.

Lemma C5_witness :
  fst (Heap.bind (Heap.combine Heap.base_loc 1 "+" 1) Heap.stringify
         [Heap.cssSelectorBuilder;
          Heap.mk_bobj (Some Heap.base_loc) (Some "a") (Some (Num 1))
            (Some (Num 1)) None None])
    = inr (Some "a + a").
Proof.
  set (h := [Heap.cssSelectorBuilder;
             Heap.mk_bobj (Some Heap.base_loc) (Some "a") (Some (Num 1))
               (Some (Num 1)) None None]).
  assert (Hw : Sim.wf h).
  { split; [reflexivity |]. intros l o Hl Hne.
    destruct l as [|[|l]]; [unfold Heap.base_loc in Hne; congruence | |].
    - injection Hl as <-. reflexivity.
    - simpl in Hl. destruct l; discriminate Hl. }
  pose proof (C5_combine_text h Heap.base_loc 1 1 "+" "a" "a" Hw
                ltac:(cbv; lia) ltac:(cbv; lia)
                eq_refl eq_refl) as H.
  unfold Heap.bind.
  destruct (Heap.combine Heap.base_loc 1 "+" 1 h) as [res h'].
  destruct H as [[l' [-> Hs]] _]. exact Hs.
Defined.

(** C6.  Each successful part call appends its value with the kind's
    prefix ([render]: none for [element], ['#'] for [id], ['.'] for
    [class], ['['] and [']'] around [attr], [':'] for [pseudoClass], ['::']
    for [pseudoElement]); and the two examples of the documentation. *)
Theorem C6_part_prefixes :
  (forall k s s' v, Pure.step k s v = inr s' ->
     Pure.stringify s' = Pure.stringify s +:+ render k v) /\
  fst (Heap.bind (Heap.run_chain Heap.base_loc
                    [(Id, "main"); (Class, "container"); (Class, "editable")])
         Heap.stringify Heap.init_heap)
    = inr (Some "#main.container.editable") /\
  fst (Heap.bind (Heap.run_chain Heap.base_loc
                    [(Element, "a"); (Attr, "href$=" +:+ dq +:+ ".png" +:+ dq);
                     (PseudoClass, "focus")])
         Heap.stringify Heap.init_heap)
    = inr (Some ("a[href$=" +:+ dq +:+ ".png" +:+ dq +:+ "]:focus")).
Proof.
  split; [| split].
  - intros k s s' v E. exact (step_string _ _ _ _ E).
  - vm_compute. reflexivity.
  - vm_compute. reflexivity.
Qed.

Lemma C6_witness :
  Pure.stringify
    (Pure.mk_state "a[x]" (Some (Num 4)) (Some (Num 0)) (Some (Num 0)) (Some (Num 0)))
    = "a" +:+ render Attr "x".
Proof.
  apply (proj1 C6_part_prefixes Attr
           (Pure.mk_state "a" (Some (Num 1)) (Some (Num 1)) (Some (Num 0)) (Some (Num 0)))
           _ "x").
  reflexivity.
Defined.

(** C10.  [cssSelectorBuilder] has [stringify() === ''], and a first call
    of any part kind on it, or on an object returned by [combine] (which has
    no [order] and the base's zero counters), returns a new object. *)
Theorem C10_first_call_never_throws :
  fst (Heap.stringify Heap.base_loc Heap.init_heap) = inr (Some "") /\
  (forall k v, exists l h', Heap.call k Heap.base_loc v Heap.init_heap = (inr l, h')) /\
  (forall h this s1 c s2 k v,
     Sim.wf h -> (s1 < length h)%nat -> (s2 < length h)%nat ->
     let '(res, h') := Heap.combine this s1 c s2 h in
     exists l', res = inr l' /\ Pure.st_order (Sim.view h' l') = None /\
       exists l'' h'', Heap.call k l' v h' = (inr l'', h'')).
Proof.
  split; [reflexivity | split].
  - intros k v. apply SimFacts.call_ok; [exact SimFacts.wf_init | cbv; lia |].
    rewrite SimFacts.view_init. apply step_succeeds; [reflexivity |].
    intros Hk. destruct k; try discriminate Hk; reflexivity.
  - intros h this s1 c s2 k v Hw H1 H2.
    pose proof (SimFacts.combine_sim this s1 s2 c h Hw H1 H2) as S.
    destruct (Heap.combine this s1 c s2 h) as [res h'].
    destruct S as [Hw' [F [-> [Hlt Hv]]]].
    exists (length h). split; [reflexivity |]. rewrite Hv. split; [reflexivity |].
    apply SimFacts.call_ok; [exact Hw' | exact Hlt |].
    rewrite Hv. apply step_succeeds; [reflexivity |].
    intros Hk. destruct k; try discriminate Hk; reflexivity.
Qed.

Lemma C10_witness :
  exists l h', Heap.call PseudoElement 1 "x"
                 (Heap.init_heap ++
                  [Heap.mk_bobj (Some Heap.base_loc) (Some " + ") None None None None])
               = (inr l, h').
Proof.
  destruct C10_first_call_never_throws as [_ [_ H]].
  specialize (H Heap.init_heap Heap.base_loc Heap.base_loc "+" Heap.base_loc
                PseudoElement "x" SimFacts.wf_init ltac:(cbv; lia) ltac:(cbv; lia)).
  vm_compute in H. destruct H as [l' [Hl' [_ Hc]]].
  injection Hl' as <-. exact Hc.
Defined.

(** C7.  For any [JSON.parse]: when it returns an object, [fromJSON]
    returns an object whose own properties are exactly the parsed ones,
    whose prototype is [proto], and on which a read finds a parsed property
    first and otherwise falls back to [proto]; [proto]'s own properties are
    not copied.  When [JSON.parse] throws, [fromJSON] throws the same
    error. *)
Theorem C7_fromJSON (JSON_parse : string -> string + Json.json)
    (P V : Type) (proto_get : P -> string -> option V) (proto : P) (text : string) :
  (forall kvs, JSON_parse text = inr (Json.JObj kvs) ->
     exists o, Json.fromJSON JSON_parse P proto text = inr o /\
       Json.j_own P o = kvs /\ Json.j_proto P o = proto /\
       (forall p j, Json.assoc p kvs = Some j ->
          Json.get_prop P V proto_get o p = Some (inl j)) /\
       (forall p, Json.assoc p kvs = None ->
          Json.get_prop P V proto_get o p = option_map inr (proto_get proto p))) /\
  (forall err, JSON_parse text = inl err ->
     Json.fromJSON JSON_parse P proto text = inl err).
Proof.
  split.
  - intros kvs E. unfold Json.fromJSON. rewrite E.
    eexists. split; [reflexivity |]. simpl.
    split; [reflexivity |]. split; [reflexivity |]. unfold Json.get_prop. simpl.
    split; intros p; [intros j Hj | intros Hn]; [rewrite Hj | rewrite Hn]; reflexivity.
  - intros err E. unfold Json.fromJSON. rewrite E. reflexivity.
Qed.

Lemma C7_witness :
  exists o, Json.fromJSON radius_parse unit tt radius_json = inr o /\
    Json.get_prop unit string circle_proto_get o "radius" = Some (inl (Json.JNum 10)) /\
    Json.get_prop unit string circle_proto_get o "getCircumference"
      = Some (inr "function").
Proof.
  destruct (C7_fromJSON radius_parse unit string circle_proto_get tt radius_json)
    as [H _].
  destruct (H [("radius", Json.JNum 10)] eq_refl) as [o [Ho [_ [_ [Hown Hproto]]]]].
  exists o. split; [exact Ho |]. split.
  - apply Hown. reflexivity.
  - apply Hproto. reflexivity.
Defined.

(** C8.  [new Rectangle(w, h)] has [width === w], [height === h] and
    [getArea() === w * h]; [getArea] multiplies the current [width] and
    [height], also after they are reassigned. *)
Theorem C8_rectangle (val : Type) (js_mul : val -> val -> val) (w h : val) :
  let r := Rect.Rectangle val w h in
  Rect.width val r = w /\ Rect.height val r = h /\
  Rect.getArea val js_mul r = js_mul w h /\
  (forall w' h', Rect.getArea val js_mul (Rect.set_height val (Rect.set_width val r w') h')
                   = js_mul w' h').
Proof. simpl. repeat split. Qed.

(** * Further properties of the code *)

(** X1.  A chain of part calls never changes an object that existed
    before it, whether it returns or throws: every earlier object, the
    receiver and [cssSelectorBuilder] included, is the same and reads the
    same fields through its prototype chain afterwards. *)
Theorem X1_chain_frame (cs : list (part * string)) (h : Heap.heap) (l : nat) :
  Sim.wf h -> (l < length h)%nat ->
  let '(res, h') := Heap.run_chain l cs h in
  Sim.wf h' /\
  (forall l0, (l0 < length h)%nat -> h' !! l0 = h !! l0 /\ Sim.view h' l0 = Sim.view h l0).
Proof.
  intros Hw Hl. pose proof (ChainFacts.run_chain_sim cs l h Hw Hl) as S.
  destruct (Heap.run_chain l cs h) as [res h']. destruct S as [Hw' [F _]].
  split; [exact Hw' |]. intros l0 H0. split; [auto |].
  apply SimFacts.view_frame; auto.
Qed.

Lemma X1_witness :
  Sim.view (snd (Heap.run_chain Heap.base_loc [(Element, "a"); (Id, "b")] Heap.init_heap))
    Heap.base_loc = Pure.base.
Proof.
  pose proof (X1_chain_frame [(Element, "a"); (Id, "b")] Heap.init_heap Heap.base_loc
                SimFacts.wf_init ltac:(cbv; lia)) as H.
  destruct (Heap.run_chain Heap.base_loc [(Element, "a"); (Id, "b")] Heap.init_heap)
    as [res h'].
  cbn [snd]. destruct H as [_ H]. destruct (H Heap.base_loc ltac:(cbv; lia)) as [_ ->].
  exact SimFacts.view_init.
Defined.

(** X2.  A chain of part calls on [cssSelectorBuilder] returns an object
    exactly when the ranks of its calls never decrease and it calls each of
    [element], [id] and [pseudoElement] at most once; otherwise it throws. *)
Theorem X2_chain_succeeds_iff (cs : list (part * string)) :
  (exists l', fst (Heap.run_chain Heap.base_loc cs Heap.init_heap) = inr l') <->
  Pure.ranks_nondecreasing cs = true /\
  (forall k, singleton k = true -> (Pure.count_kind k cs <= 1)%nat).
Proof.
  pose proof (ChainFacts.run_chain_sim cs Heap.base_loc Heap.init_heap SimFacts.wf_init
                ltac:(cbv; lia)) as S.
  rewrite SimFacts.view_init in S.
  destruct (Heap.run_chain Heap.base_loc cs Heap.init_heap) as [res h'].
  destruct S as [_ [_ R]]. simpl fst. split.
  - intros [l' ->]. destruct R as [_ Hc]. split.
    + exact (chain_sorted _ _ _ Hc).
    + intros k Hk. exact (chain_count_le1 k cs _ _ Inv_base Hk Hc).
  - intros [Hsort Hcnt].
    destruct (chain_sorted_ok cs Pure.base Hsort Hcnt) as [s [Hc _]].
    + intros k v cs' _. reflexivity.
    + intros k Hk _. destruct k; try discriminate Hk; reflexivity.
    + destruct res as [e|l']; [congruence | eauto].
Qed.

(** X3.  The only errors a chain of part calls throws, on any object of
    the builder, are the order message and the duplicate-part message. *)
Theorem X3_chain_errors (cs : list (part * string)) (h : Heap.heap) (l : nat) (e : string) :
  Sim.wf h -> (l < length h)%nat ->
  fst (Heap.run_chain l cs h) = inl e -> e = msg_order \/ e = msg_dup.
Proof.
  intros Hw Hl. pose proof (ChainFacts.run_chain_sim cs l h Hw Hl) as S.
  destruct (Heap.run_chain l cs h) as [res h']. destruct S as [_ [_ R]].
  simpl. intros ->. exact (chain_err _ _ _ R).
Qed.

Lemma X3_witness :
  fst (Heap.run_chain Heap.base_loc [(Class, "a"); (Id, "b")] Heap.init_heap)
    = inl msg_order.
Proof.
  assert (E : fst (Heap.run_chain Heap.base_loc [(Class, "a"); (Id, "b")] Heap.init_heap)
                = inl msg_order) by (vm_compute; reflexivity).
  destruct (X3_chain_errors [(Class, "a"); (Id, "b")] Heap.init_heap Heap.base_loc
              msg_order SimFacts.wf_init ltac:(cbv; lia) E); exact E.
Defined.

(** X4.  On any object of the builder whose [stringify()] is [t], a chain
    of part calls that returns gives an object whose [stringify()] is [t]
    followed by the text of each part in call order. *)
Theorem X4_chain_text (cs : list (part * string)) (h : Heap.heap) (l : nat) (t : string) :
  Sim.wf h -> (l < length h)%nat -> fst (Heap.stringify l h) = inr (Some t) ->
  let '(res, h') := Heap.run_chain l cs h in
  forall l', res = inr l' -> fst (Heap.stringify l' h') = inr (Some (t +:+ Pure.rendered cs)).
Proof.
  intros Hw Hl Ht. pose proof (ChainFacts.run_chain_sim cs l h Hw Hl) as S.
  rewrite (ChainFacts.stringify_view h l Hw Hl) in Ht. injection Ht as <-.
  destruct (Heap.run_chain l cs h) as [res h']. destruct S as [Hw' [_ R]].
  intros l' ->. destruct R as [Hl' Hc].
  rewrite (ChainFacts.stringify_view h' l' Hw' Hl'), (chain_string _ _ _ Hc).
  reflexivity.
Qed.

Lemma X4_witness :
  fst (Heap.bind (Heap.run_chain Heap.base_loc [(Element, "p"); (Class, "q")])
         Heap.stringify Heap.init_heap) = inr (Some "p.q").
Proof.
  pose proof (X4_chain_text [(Element, "p"); (Class, "q")] Heap.init_heap Heap.base_loc ""
                SimFacts.wf_init ltac:(cbv; lia) eq_refl) as H.
  unfold Heap.bind.
  destruct (Heap.run_chain Heap.base_loc [(Element, "p"); (Class, "q")] Heap.init_heap)
    as [[e|l'] h'] eqn:E.
  - vm_compute in E. discriminate E.
  - exact (H l' eq_refl).
Defined.

(** X5.  The builder keeps no hidden state: two objects (in any builder
    heaps) that read the same [string], [order] and counters through their
    prototype chains give the same outcome for every chain of part calls,
    the same error, or objects that again read the same fields. *)
Theorem X5_outcome_by_fields (cs : list (part * string)) (h1 h2 : Heap.heap) (l1 l2 : nat) :
  Sim.wf h1 -> Sim.wf h2 -> (l1 < length h1)%nat -> (l2 < length h2)%nat ->
  Sim.view h1 l1 = Sim.view h2 l2 ->
  match Heap.run_chain l1 cs h1, Heap.run_chain l2 cs h2 with
  | (inl e1, _), (inl e2, _) => e1 = e2
  | (inr a, h1'), (inr b, h2') =>
      Sim.view h1' a = Sim.view h2' b /\ fst (Heap.stringify a h1') = fst (Heap.stringify b h2')
  | _, _ => False
  end.
Proof.
  intros Hw1 Hw2 Hl1 Hl2 V.
  pose proof (ChainFacts.run_chain_sim cs l1 h1 Hw1 Hl1) as S1.
  pose proof (ChainFacts.run_chain_sim cs l2 h2 Hw2 Hl2) as S2.
  rewrite V in S1.
  destruct (Heap.run_chain l1 cs h1) as [[e1|a] h1'], (Heap.run_chain l2 cs h2) as [[e2|b] h2'].
  all: destruct S1 as [Hw1' [_ R1]], S2 as [Hw2' [_ R2]].
  - congruence.
  - destruct R2 as [_ R2]. congruence.
  - destruct R1 as [_ R1]. congruence.
  - destruct R1 as [Ha R1], R2 as [Hb R2].
    assert (Vab : Sim.view h1' a = Sim.view h2' b) by congruence.
    split; [exact Vab |].
    rewrite (ChainFacts.stringify_view h1' a Hw1' Ha),
      (ChainFacts.stringify_view h2' b Hw2' Hb), Vab.
    reflexivity.
Qed.

(** A fresh [Object.create(cssSelectorBuilder)] next to the builder. *)
Lemma X5_witness :
  Sim.view (Heap.init_heap ++ [Heap.new_obj]) 1 = Sim.view Heap.init_heap Heap.base_loc /\
  match Heap.run_chain 1 [(Id, "x")] (Heap.init_heap ++ [Heap.new_obj]),
        Heap.run_chain Heap.base_loc [(Id, "x")] Heap.init_heap with
  | (inl e1, _), (inl e2, _) => e1 = e2
  | (inr a, h1'), (inr b, h2') =>
      Sim.view h1' a = Sim.view h2' b /\ fst (Heap.stringify a h1') = fst (Heap.stringify b h2')
  | _, _ => False
  end.
Proof.
  assert (Hw : Sim.wf (Heap.init_heap ++ [Heap.new_obj]))
    by (apply SimFacts.wf_snoc; [exact SimFacts.wf_init | reflexivity]).
  assert (V : Sim.view (Heap.init_heap ++ [Heap.new_obj]) 1
              = Sim.view Heap.init_heap Heap.base_loc) by reflexivity.
  split; [exact V |].
  exact (X5_outcome_by_fields [(Id, "x")] _ _ 1 Heap.base_loc Hw SimFacts.wf_init
           ltac:(cbv; lia) ltac:(cbv; lia) V).
Defined.

(** X6.  An object returned by [combine] behaves like [cssSelectorBuilder]
    with the text ["A c B"] in front: every chain of part calls on it throws
    the error it throws on the builder, or returns the state it returns there
    with that text prepended (so, for instance, [element] is accepted right
    after [combine] and its value is appended with no separator). *)
Theorem X6_combine_like_base (a b : Pure.state) (c : string) (cs : list (part * string)) :
  Pure.chain (Pure.combine a c b) cs =
  match Pure.chain Pure.base cs with
  | inl e => inl e
  | inr s => inr (Pure.mk_state (Pure.stringify (Pure.combine a c b) +:+ Pure.stringify s)
                   (Pure.st_order s) (Pure.st_elementNum s) (Pure.st_idNum s)
                   (Pure.st_pseodoEl s))
  end.
Proof.
  unfold Pure.combine, Pure.base, Pure.stringify.
  rewrite <- (string_app_nil_r
    (Pure.st_string a +:+ " " +:+ c +:+ " " +:+ Pure.st_string b)) at 1.
  rewrite chain_prefix. reflexivity.
Qed.

(** X7.  Nesting of [combine] does not change the text:
    [combine(combine(A, c, B), d, E)] and [combine(A, c, combine(B, d, E))]
    have the same [stringify()]. *)
Theorem X7_combine_assoc (h : Heap.heap) (this a b e : nat) (c d : string) :
  Sim.wf h -> (a < length h)%nat -> (b < length h)%nat -> (e < length h)%nat ->
  fst (Heap.bind (Heap.combine this a c b)
         (fun x => Heap.bind (Heap.combine this x d e) Heap.stringify) h) =
  fst (Heap.bind (Heap.combine this b d e)
         (fun z => Heap.bind (Heap.combine this a c z) Heap.stringify) h).
Proof.
  intros Hw Ha Hb He. unfold Heap.bind at 1 3.
  pose proof (SimFacts.combine_sim this a b c h Hw Ha Hb) as S1.
  pose proof (SimFacts.combine_sim this b e d h Hw Hb He) as S2.
  destruct (Heap.combine this a c b h) as [r1 h1].
  destruct S1 as [Hw1 [F1 [-> [Hlt1 V1]]]].
  destruct (Heap.combine this b d e h) as [r2 h2].
  destruct S2 as [Hw2 [F2 [-> [Hlt2 V2]]]].
  pose proof (ChainFacts.frame_len h h1 F1) as Hle1.
  pose proof (ChainFacts.frame_len h h2 F2) as Hle2.
  pose proof (SimFacts.combine_sim this (length h) e d h1 Hw1 ltac:(lia) ltac:(lia)) as S3.
  pose proof (SimFacts.combine_sim this a (length h) c h2 Hw2 ltac:(lia) ltac:(lia)) as S4.
  unfold Heap.bind.
  destruct (Heap.combine this (length h) d e h1) as [r3 h3].
  destruct S3 as [Hw3 [_ [-> [Hlt3 V3]]]].
  destruct (Heap.combine this a c (length h) h2) as [r4 h4].
  destruct S4 as [Hw4 [_ [-> [Hlt4 V4]]]].
  rewrite (ChainFacts.stringify_view h3 _ Hw3 Hlt3), (ChainFacts.stringify_view h4 _ Hw4 Hlt4).
  rewrite V3, V4, V1, V2.
  rewrite (SimFacts.view_frame h h1 e Hw Hw1 (F1 e He)),
    (SimFacts.view_frame h h2 a Hw Hw2 (F2 a Ha)).
  unfold Pure.combine. cbn [Pure.st_string].
  rewrite !string_app_assoc. reflexivity.
Qed.

Lemma X7_witness :
  fst (Heap.bind (Heap.combine Heap.base_loc 1 "+" 1)
         (fun x => Heap.bind (Heap.combine Heap.base_loc x "~" 1) Heap.stringify)
         (Heap.init_heap ++ [Heap.set_string "p" Heap.new_obj])) =
  fst (Heap.bind (Heap.combine Heap.base_loc 1 "~" 1)
         (fun z => Heap.bind (Heap.combine Heap.base_loc 1 "+" z) Heap.stringify)
         (Heap.init_heap ++ [Heap.set_string "p" Heap.new_obj])).
Proof.
  apply X7_combine_assoc.
  - apply SimFacts.wf_snoc; [exact SimFacts.wf_init | reflexivity].
  - cbv; lia.
  - cbv; lia.
  - cbv; lia.
Defined.

(** X8.  In a lineage from [cssSelectorBuilder], [element] succeeds only as
    the first call, and [id] succeeds only when every earlier call was
    [element]. *)
Theorem X8_element_id_first (cs : list (part * string)) (s : Pure.state) :
  Pure.chain Pure.base cs = inr s ->
  (forall v s', Pure.step Element s v = inr s' -> cs = []) /\
  (forall v s', Pure.step Id s v = inr s' -> forall c, In c cs -> c.1 = Element).
Proof.
  intros Hc. pose proof (chain_Inv _ _ _ Inv_base Hc) as HI.
  assert (Hlast : cs <> [] -> exists k0, Pure.st_order s = Some (Num (rank k0)) /\
                                         In k0 (map fst cs)).
  { intros Hne. destruct (exists_last Hne) as [pre [[k0 v0] ->]].
    exists k0. split; [exact (chain_last_order _ _ _ _ _ Hc) |].
    rewrite map_app. apply in_or_app. right. left. reflexivity. }
  split.
  - intros v s' E. destruct cs as [|c0 cs0]; [reflexivity | exfalso].
    destruct (Hlast ltac:(discriminate)) as [k0 [Ho _]].
    rewrite (singleton_again Element s v (rank k0) HI eq_refl Ho
               ltac:(destruct k0; simpl; lia)) in E.
    discriminate E.
  - intros v s' E c Hin.
    destruct (Hlast ltac:(intros ->; destruct Hin)) as [k0 [Ho _]].
    destruct (step_order _ _ _ _ E) as [_ Hgt]. rewrite Ho in Hgt. simpl in Hgt.
    assert (Hk0 : k0 = Element).
    { destruct k0; simpl in Hgt; try discriminate Hgt; [reflexivity |].
      rewrite (singleton_again Id s v 2 HI eq_refl Ho ltac:(simpl; lia)) in E.
      discriminate E. }
    subst k0. destruct (chain_ranks_le cs _ _ Hc c Hin) as [z [Hz Hle]].
    rewrite Ho in Hz. injection Hz as <-. simpl in Hle.
    destruct c as [[] w]; simpl in *; try reflexivity; lia.
Qed.

Lemma X8_witness :
  match Pure.step Element
          (Pure.mk_state "#i" (Some (Num 2)) (Some (Num 0)) (Some (Num 1)) (Some (Num 0))) "a"
  with inl _ => True | inr _ => False end.
Proof.
  destruct (Pure.step Element
              (Pure.mk_state "#i" (Some (Num 2)) (Some (Num 0)) (Some (Num 1)) (Some (Num 0)))
              "a") as [e|s'] eqn:E; [exact I |].
  pose proof (proj1 (X8_element_id_first [(Id, "i")]
                       (Pure.mk_state "#i" (Some (Num 2)) (Some (Num 0)) (Some (Num 1))
                          (Some (Num 0))) eq_refl) "a" s' E) as H.
  discriminate H.
Defined.

(** X9.  In a lineage from [cssSelectorBuilder], [pseudoElement] ends the
    selector: every part call on its result throws, with the duplicate-part
    message for [pseudoElement] and the order message for the other kinds. *)
Theorem X9_pseudoElement_last (cs : list (part * string)) (s s' : Pure.state) (v : string) :
  Pure.chain Pure.base cs = inr s -> Pure.step PseudoElement s v = inr s' ->
  forall k v', Pure.step k s' v' =
                 inl (if bool_decide (k = PseudoElement) then msg_dup else msg_order).
Proof.
  intros Hc E k v'.
  pose proof (Inv_step _ _ _ _ (chain_Inv _ _ _ Inv_base Hc) E) as HI.
  destruct (step_order _ _ _ _ E) as [Ho _].
  destruct k.
  all: try (rewrite (singleton_again PseudoElement s' v' 6 HI eq_refl Ho ltac:(simpl; lia));
            reflexivity).
  all: apply step_order_viol; rewrite Ho; reflexivity.
Qed.

Lemma X9_witness :
  Pure.step Class
    (Pure.mk_state "a::b" (Some (Num 6)) (Some (Num 0)) (Some (Num 0)) (Some (Num 1))) "c"
    = inl msg_order.
Proof.
  exact (X9_pseudoElement_last [(Element, "a")]
           (Pure.mk_state "a" (Some (Num 1)) (Some (Num 1)) (Some (Num 0)) (Some (Num 0)))
           _ "b" eq_refl eq_refl Class "c").
Defined.

(** X10.  When the JSON text is [null], a boolean or a number, [fromJSON]
    returns an object with no own properties: every property read on it is
    answered by [proto]. *)
Theorem X10_fromJSON_primitive (JSON_parse : string -> string + Json.json)
    (P V : Type) (proto_get : P -> string -> option V) (proto : P) (text : string)
    (v : Json.json) :
  JSON_parse text = inr v ->
  (v = Json.JNull \/ (exists b, v = Json.JBool b) \/ (exists z, v = Json.JNum z)) ->
  exists o, Json.fromJSON JSON_parse P proto text = inr o /\
    Json.j_own P o = [] /\ Json.j_proto P o = proto /\
    (forall p, Json.get_prop P V proto_get o p = option_map inr (proto_get proto p)).
Proof.
  intros E Hv. unfold Json.fromJSON. rewrite E. eexists. split; [reflexivity |].
  assert (Hs : Json.spread v = []) by (destruct Hv as [->|[[b ->]|[z ->]]]; reflexivity).
  cbn [Json.j_own Json.j_proto]. rewrite Hs.
  split; [reflexivity |]. split; [reflexivity |]. intros p. reflexivity.
Qed.

Lemma X10_witness :
  exists o, Json.fromJSON (fun _ => inr (Json.JNum 10)) unit tt "10" = inr o /\
    Json.get_prop unit string circle_proto_get o "radius" = None.
Proof.
  destruct (X10_fromJSON_primitive (fun _ => inr (Json.JNum 10)) unit string
              circle_proto_get tt "10" (Json.JNum 10) eq_refl
              ltac:(right; right; eexists; reflexivity)) as [o [Ho [_ [_ Hp]]]].
  exists o. split; [exact Ho |]. rewrite Hp. reflexivity.
Defined.

(** X11.  When the JSON text is an array, [fromJSON] returns an object whose
    own property ["i"] (the decimal index) is the array's element [i]; any
    other property (such as [length]) is read from [proto]. *)
Theorem X11_fromJSON_array (JSON_parse : string -> string + Json.json)
    (P V : Type) (proto_get : P -> string -> option V) (proto : P) (text : string)
    (xs : list Json.json) :
  JSON_parse text = inr (Json.JArr xs) ->
  exists o, Json.fromJSON JSON_parse P proto text = inr o /\ Json.j_proto P o = proto /\
    (forall i x, xs !! i = Some x -> Json.get_prop P V proto_get o (pretty i) = Some (inl x)) /\
    (forall p, (forall i, (i < length xs)%nat -> p <> pretty i) ->
       Json.get_prop P V proto_get o p = option_map inr (proto_get proto p)).
Proof.
  intros E. unfold Json.fromJSON. rewrite E. eexists. split; [reflexivity |].
  split; [reflexivity |]. unfold Json.get_prop. cbn [Json.j_own Json.j_proto Json.spread].
  split.
  - intros i x Hx.
    rewrite (JsonFacts.assoc_imap pretty (fun _ x => x) (inj pretty) xs i), Hx.
    reflexivity.
  - intros p Hp. rewrite (JsonFacts.assoc_imap_none pretty (fun _ x => x) xs p Hp).
    reflexivity.
Qed.

Lemma X11_witness :
  exists o, Json.fromJSON (fun _ => inr (Json.JArr [Json.JNum 7; Json.JNull])) unit tt "t"
              = inr o /\
    Json.get_prop unit string circle_proto_get o (pretty 1%nat) = Some (inl Json.JNull).
Proof.
  destruct (X11_fromJSON_array (fun _ => inr (Json.JArr [Json.JNum 7; Json.JNull])) unit
              string circle_proto_get tt "t" _ eq_refl) as [o [Ho [_ [Hi _]]]].
  exists o. split; [exact Ho |]. apply Hi. reflexivity.
Defined.

(** X12.  When the JSON text is a string, [fromJSON] returns an object whose
    own property ["i"] is the one-character string at position [i]; any
    other property (such as [length]) is read from [proto]. *)
Theorem X12_fromJSON_string (JSON_parse : string -> string + Json.json)
    (P V : Type) (proto_get : P -> string -> option V) (proto : P) (text s : string) :
  JSON_parse text = inr (Json.JStr s) ->
  exists o, Json.fromJSON JSON_parse P proto text = inr o /\ Json.j_proto P o = proto /\
    (forall i ch, String.get i s = Some ch ->
       Json.get_prop P V proto_get o (pretty i) = Some (inl (Json.JStr (String ch EmptyString)))) /\
    (forall p, (forall i, (i < String.length s)%nat -> p <> pretty i) ->
       Json.get_prop P V proto_get o p = option_map inr (proto_get proto p)).
Proof.
  intros E. unfold Json.fromJSON. rewrite E. eexists. split; [reflexivity |].
  split; [reflexivity |]. unfold Json.get_prop. cbn [Json.j_own Json.j_proto Json.spread].
  split.
  - intros i ch Hch.
    rewrite (JsonFacts.assoc_imap pretty (fun _ c => Json.JStr (String c EmptyString))
               (inj pretty) _ i), JsonFacts.list_ascii_get, Hch.
    reflexivity.
  - intros p Hp.
    rewrite (JsonFacts.assoc_imap_none pretty (fun _ c => Json.JStr (String c EmptyString))
               _ p); [reflexivity |].
    rewrite JsonFacts.list_ascii_length. exact Hp.
Qed.

Lemma X12_witness :
  exists o, Json.fromJSON (fun _ => inr (Json.JStr "ab")) unit tt "t" = inr o /\
    Json.get_prop unit string circle_proto_get o (pretty 1%nat) = Some (inl (Json.JStr "b")).
Proof.
  destruct (X12_fromJSON_string (fun _ => inr (Json.JStr "ab")) unit string
              circle_proto_get tt "t" "ab" eq_refl) as [o [Ho [_ [Hi _]]]].
  exists o. split; [exact Ho |]. apply Hi. reflexivity.
Defined.
